(** * Dartino VM: Unicode transcoding (src/vm/unicode.cc) and stack frame
      navigation (src/vm/frame.h)

    A shallow embedding of the two translation units and the properties
    established about them.  Integers of the C++ code are modelled as [Z]
    with the wrap-around of each fixed-width type written out; raw buffers
    are modelled as functions from an index to the stored value, together
    with a trace of the indices that are read or written. *)

From Stdlib Require Import ZArith List Bool Lia.
Import ListNotations.
Open Scope Z_scope.

(* ================================================================== *)
(** * Machine integers and behaviours *)
(* ================================================================== *)

(** Conversion to [uint8_t] / the bit pattern of a [char]. *)
Definition to_uint8 (x : Z) : Z := x mod 2 ^ 8.

(** Conversion to [uint16_t]. *)
Definition to_uint16 (x : Z) : Z := x mod 2 ^ 16.

(** Conversion to [uint32_t]: arithmetic on [uint32_t] wraps modulo 2^32. *)
Definition to_uint32 (x : Z) : Z := x mod 2 ^ 32.

(** Conversion of a [uint32_t] value to [int32_t] (two's complement). *)
Definition to_int32 (x : Z) : Z := (x + 2 ^ 31) mod 2 ^ 32 - 2 ^ 31.

(** The behaviours of a call.  [Ret v] is a normal return.  [Fatal] is the
    process abort of [UNREACHABLE()] or of a failed [ASSERT].  [Undef] is an
    access outside the object that is addressed (undefined behaviour in
    C++).  [Fuel] is not a behaviour of the program: it is the answer of a
    loop of the model whose iteration bound was too small, and is shown not
    to occur for the bounds used. *)
Inductive outcome (A : Type) : Type :=
| Ret (a : A)
| Fatal
| Undef
| Fuel.
Arguments Ret {A} a.
Arguments Fatal {A}.
Arguments Undef {A}.
Arguments Fuel {A}.

Definition bind {A B : Type} (c : outcome A) (k : A -> outcome B) : outcome B :=
  match c with
  | Ret a => k a
  | Fatal => Fatal
  | Undef => Undef
  | Fuel => Fuel
  end.

Notation "x <- c ;; k" := (bind c (fun x => k))
  (at level 61, c at next level, right associativity).

(** A raw buffer ([uint8_t*], [char*], [uint16_t*]): the value stored at
    each index. *)
Definition buffer := Z -> Z.

(** [&a[i]]: the buffer seen from index [i]. *)
Definition offset (a : buffer) (i : Z) : buffer := fun k => a (i + k).

(** A trace of stores, oldest first: [(index, value)]. *)
Definition writes := list (Z * Z).

(** [a[i] = v]. *)
Definition store (a : buffer) (i v : Z) : buffer :=
  fun k => if k =? i then v else a k.

(** The buffer after a trace of stores. *)
Definition store_all (a : buffer) (w : writes) : buffer :=
  fold_left (fun m iv => store m (fst iv) (snd iv)) w a.

(** The stores of a callee that was handed [&dst[pos]], as stores into
    [dst]. *)
Definition shift (pos : Z) (w : writes) : writes :=
  map (fun iv => (pos + fst iv, snd iv)) w.

(** The buffer that holds exactly the elements of a list. *)
Definition of_list (l : list Z) : buffer := fun k => nth (Z.to_nat k) l 0.

(* ================================================================== *)
(** * class Utf *)
(* ================================================================== *)

Module Utf.

(** Modelled from the spec: src/vm/unicode.h is not part of the sources.
    The largest code point is U+10FFFF. *)
Definition kMaxCodePoint : Z := 0x10FFFF.

(** Modelled from the spec: src/vm/unicode.h is not part of the sources.
    "The resulting code point is out of the valid Unicode range." *)
Definition IsOutOfRange (code_point : Z) : bool :=
  (code_point <? 0) || (kMaxCodePoint <? code_point).

End Utf.

(* ================================================================== *)
(** * class Utf16 *)
(* ================================================================== *)

Module Utf16.

(** Modelled from the spec: src/vm/unicode.h is not part of the sources.
    A code unit has 16 bits. *)
Definition kMaxCodeUnit : Z := 0xFFFF.

(** Modelled from the spec: src/vm/unicode.h is not part of the sources.
    "lead = 0xD800-offset plus the code point's high 10 bits": the offset
    removes the 0x10000 bias of the supplementary planes. *)
Definition kLeadSurrogateOffset : Z := 0xD800 - Z.shiftr 0x10000 10.

(** Modelled from the spec: src/vm/unicode.h is not part of the sources.
    "The code-unit length of a code point (1, or 2 if that code point was
    supplementary)." *)
Definition Length (ch : Z) : Z := if ch <=? kMaxCodeUnit then 1 else 2.

(** Modelled from the spec: src/vm/unicode.h is not part of the sources.
    A lead surrogate lies in [0xD800, 0xDBFF]. *)
Definition IsLeadSurrogate (ch : Z) : bool :=
  (0xD800 <=? ch) && (ch <=? 0xDBFF).

(** Modelled from the spec: src/vm/unicode.h is not part of the sources.
    A trail surrogate lies in [0xDC00, 0xDFFF]. *)
Definition IsTrailSurrogate (ch : Z) : bool :=
  (0xDC00 <=? ch) && (ch <=? 0xDFFF).

(** Modelled from the spec: src/vm/unicode.h is not part of the sources.
    A surrogate pair jointly encodes one supplementary code point: ten bits
    from the lead, ten bits from the trail, above U+10000. *)
Definition Decode (lead trail : Z) : Z :=
  0x10000 + Z.shiftl (Z.land lead 0x3FF) 10 + Z.land trail 0x3FF.

(** [void Utf16::Encode(int32 codepoint, uint16_t* dst)]: the two stores.
    [ASSERT(codepoint > Utf16::kMaxCodeUnit)] is a contract of debug
    builds and is not part of the computation. *)
Definition Encode (codepoint : Z) : writes :=
  [ (0, to_uint16 (kLeadSurrogateOffset + Z.shiftr codepoint 10));
    (1, to_uint16 (0xDC00 + Z.land codepoint 0x3FF)) ].

End Utf16.

(* ================================================================== *)
(** * class CodePointIterator *)
(* ================================================================== *)

Module CodePointIterator.

(** Modelled from the spec: [TwoByteString] (src/vm/object.h) is not part
    of the sources.  "A fixed-length sequence of 16-bit code units." *)
Definition TwoByteString := list Z.

Definition length (str : TwoByteString) : Z := Z.of_nat (List.length str).

(** Modelled from the spec: [TwoByteString::get_code_unit] is not part of
    the sources.  An index outside the string is an access outside the
    object. *)
Definition get_code_unit (str : TwoByteString) (index : Z) : outcome Z :=
  if index <? 0 then Undef
  else match nth_error str (Z.to_nat index) with
       | Some u => Ret u
       | None => Undef
       end.

Record t : Type := mk {
  str_ : TwoByteString;
  ch_ : Z;
  index_ : Z;
  end_ : Z
}.

(** [CodePointIterator::CodePointIterator(TwoByteString* str)]. *)
Definition new (str : TwoByteString) : t :=
  {| str_ := str; ch_ := 0; index_ := -1; end_ := length str |}.

(** Modelled from the spec: [Current()] is declared in src/vm/unicode.h;
    it is "the current code point". *)
Definition Current (it : t) : Z := ch_ it.

(** [bool CodePointIterator::Next()]: the answer and the iterator after
    the call. *)
Definition Next (it : t) : outcome (bool * t) :=
  if index_ it <? -1 then Fatal
  else
    let length := Utf16.Length (ch_ it) in
    if index_ it <? end_ it - length then
      let index := index_ it + length in
      ch <- get_code_unit (str_ it) index ;;
      if Utf16.IsLeadSurrogate ch && (index <? end_ it - 1) then
        ch2 <- get_code_unit (str_ it) (index + 1) ;;
        if Utf16.IsTrailSurrogate ch2 then
          Ret (true, {| str_ := str_ it; ch_ := Utf16.Decode ch ch2;
                        index_ := index; end_ := end_ it |})
        else
          Ret (true, {| str_ := str_ it; ch_ := ch;
                        index_ := index; end_ := end_ it |})
      else
        Ret (true, {| str_ := str_ it; ch_ := ch;
                      index_ := index; end_ := end_ it |})
    else
      Ret (false, {| str_ := str_ it; ch_ := ch_ it;
                     index_ := end_ it; end_ := end_ it |}).

(** [while (it.Next()) { ... it.Current() ... }] with an empty body: the
    code points that the iterator yields, in order. *)
Fixpoint code_points (fuel : nat) (it : t) : outcome (list Z) :=
  match fuel with
  | O => Fuel
  | S fuel' =>
      r <- Next it ;;
      if fst r then
        rest <- code_points fuel' (snd r) ;;
        Ret (Current (snd r) :: rest)
      else Ret []
  end.

End CodePointIterator.

(* ================================================================== *)
(** * class Utf8 *)
(* ================================================================== *)

Module Utf8.

(** [const int8_t Utf8::kTrailBytes[256]]. *)
Definition kTrailBytes : list Z :=
  [ 1; 1; 1; 1; 1; 1; 1; 1; 1; 1; 1; 1; 1; 1; 1; 1; 1; 1; 1; 1; 1; 1; 1; 1;
    1; 1; 1; 1; 1; 1; 1; 1; 1; 1; 1; 1; 1; 1; 1; 1; 1; 1; 1; 1; 1; 1; 1; 1;
    1; 1; 1; 1; 1; 1; 1; 1; 1; 1; 1; 1; 1; 1; 1; 1; 1; 1; 1; 1; 1; 1; 1; 1;
    1; 1; 1; 1; 1; 1; 1; 1; 1; 1; 1; 1; 1; 1; 1; 1; 1; 1; 1; 1; 1; 1; 1; 1;
    1; 1; 1; 1; 1; 1; 1; 1; 1; 1; 1; 1; 1; 1; 1; 1; 1; 1; 1; 1; 1; 1; 1; 1;
    1; 1; 1; 1; 1; 1; 1; 1; 0; 0; 0; 0; 0; 0; 0; 0; 0; 0; 0; 0; 0; 0; 0; 0;
    0; 0; 0; 0; 0; 0; 0; 0; 0; 0; 0; 0; 0; 0; 0; 0; 0; 0; 0; 0; 0; 0; 0; 0;
    0; 0; 0; 0; 0; 0; 0; 0; 0; 0; 0; 0; 0; 0; 0; 0; 0; 0; 0; 0; 0; 0; 0; 0;
    2; 2; 2; 2; 2; 2; 2; 2; 2; 2; 2; 2; 2; 2; 2; 2; 2; 2; 2; 2; 2; 2; 2; 2;
    2; 2; 2; 2; 2; 2; 2; 2; 3; 3; 3; 3; 3; 3; 3; 3; 3; 3; 3; 3; 3; 3; 3; 3;
    4; 4; 4; 4; 4; 4; 4; 4; 5; 5; 5; 5; 6; 6; 0; 0 ].

(** [const uint32 Utf8::kMagicBits[7]]. *)
Definition kMagicBits : list Z :=
  [ 0;  (* Padding. *)
    0x00000000; 0x00003080; 0x000E2080;
    0x03C82080; 0xFA082080; 0x82082080 ].

(** [const uint32 Utf8::kOverlongMinimum[7]]: minimum values of code points
    used to check shortest form. *)
Definition kOverlongMinimum : list Z :=
  [ 0;  (* Padding. *)
    0x0; 0x80; 0x800;
    0x10000; 0xFFFFFFFF; 0xFFFFFFFF ].

(** [table[index]] for the three constant tables; every index used by the
    code lies inside its table. *)
Definition at_index (table : list Z) (index : Z) : Z :=
  nth (Z.to_nat index) table 0.

(** Modelled from the spec: src/vm/unicode.h is not part of the sources.
    The "fixed breakpoints at U+007F, U+07FF, U+FFFF, and U+10FFFF". *)
Definition kMaxOneByteChar : Z := 0x7F.
Definition kMaxTwoByteChar : Z := 0x7FF.
Definition kMaxThreeByteChar : Z := 0xFFFF.
Definition kMaxFourByteChar : Z := Utf.kMaxCodePoint.

(** Modelled from the spec: src/vm/unicode.h is not part of the sources.
    "Each trailing byte matches the 10xxxxxx pattern." *)
Definition IsTrailByte (code_unit : Z) : bool :=
  Z.land code_unit 0xC0 =? 0x80.

(** Modelled from the spec: src/vm/unicode.h is not part of the sources.
    "The code point is below the minimum value that legitimately requires
    that many bytes." *)
Definition IsNonShortestForm (code_point num_bytes : Z) : bool :=
  code_point <? at_index kOverlongMinimum num_bytes.

(** Modelled from the spec: src/vm/unicode.h is not part of the sources.
    "A byte pattern indicating a 4-byte/supplementary lead." *)
Definition IsSupplementarySequenceStart (code_unit : Z) : bool :=
  0xF0 <=? code_unit.

(** [word Utf8::Length(int32 ch)].  [ASSERT(ch <= kMaxFourByteChar)] is a
    contract of debug builds and is not part of the computation. *)
Definition Length (ch : Z) : Z :=
  if ch <=? kMaxOneByteChar then 1
  else if ch <=? kMaxTwoByteChar then 2
  else if ch <=? kMaxThreeByteChar then 3
  else 4.

(** [static const int kMask = ~(1 << 6)] of [Utf8::Encode]. *)
Definition kMask : Z := Z.lnot (Z.shiftl 1 6).

(** [word Utf8::Encode(int32 ch, char* dst)]: the stores into [dst], each
    value converted to [char], and the returned length. *)
Definition Encode (ch : Z) : writes * Z :=
  if ch <=? kMaxOneByteChar then
    ([ (0, to_uint8 ch) ], 1)
  else if ch <=? kMaxTwoByteChar then
    ([ (0, to_uint8 (Z.lor 0xC0 (Z.shiftr ch 6)));
       (1, to_uint8 (Z.lor 0x80 (Z.land ch kMask))) ], 2)
  else if ch <=? kMaxThreeByteChar then
    ([ (0, to_uint8 (Z.lor 0xE0 (Z.shiftr ch 12)));
       (1, to_uint8 (Z.lor 0x80 (Z.land (Z.shiftr ch 6) kMask)));
       (2, to_uint8 (Z.lor 0x80 (Z.land ch kMask))) ], 3)
  else
    ([ (0, to_uint8 (Z.lor 0xF0 (Z.shiftr ch 18)));
       (1, to_uint8 (Z.lor 0x80 (Z.land (Z.shiftr ch 12) kMask)));
       (2, to_uint8 (Z.lor 0x80 (Z.land (Z.shiftr ch 6) kMask)));
       (3, to_uint8 (Z.lor 0x80 (Z.land ch kMask))) ], 4).

(** The loop of [Utf8::Encode(TwoByteString*, char*, word)], entered with
    the iterator, the position and the stores made so far.  [word] values
    stay far from the bounds of the type ([pos] grows by at most four per
    code unit of the string), so they are plain integers. *)
Fixpoint Encode_loop (fuel : nat) (it : CodePointIterator.t)
    (len pos : Z) (w : writes) : outcome (writes * Z) :=
  match fuel with
  | O => Fuel
  | S fuel' =>
      r <- CodePointIterator.Next it ;;
      if fst r then
        let ch := CodePointIterator.Current (snd r) in
        let num_bytes := Length ch in
        if len <? pos + num_bytes then Ret (w, pos)
        else Encode_loop fuel' (snd r) len (pos + num_bytes)
               (w ++ shift pos (fst (Encode ch)))
      else Ret (w, pos)
  end.

(** [word Utf8::Encode(TwoByteString* src, char* dst, word len)]: the
    stores into [dst] and the returned position.  The iterator answers
    [false] after at most one call per code unit and one more. *)
Definition Encode_str (src : CodePointIterator.TwoByteString) (len : Z)
    : outcome (writes * Z) :=
  Encode_loop (S (List.length src)) (CodePointIterator.new src) len 0 [].

(** What [Utf8::Decode] leaves behind: the returned number of bytes, the
    value stored in [*dst], and the indices of [utf8_array] it has read,
    oldest first. *)
Record DecodeResult : Type := mkDecode {
  consumed : Z;
  dst : Z;
  reads : list Z
}.

(** The loop [for (; i < num_trail_bytes; ++i)] of [Utf8::Decode], entered
    with [n = num_trail_bytes - i] iterations to go.  [None] is the early
    [return 0] of a truncated sequence. *)
Fixpoint Decode_loop (n : nat) (utf8_array : buffer) (array_len i ch : Z)
    (is_malformed : bool) (rd : list Z) : option (Z * Z * bool) * list Z :=
  match n with
  | O => (Some (i, ch, is_malformed), rd)
  | S n' =>
      if i <? array_len then
        let code_unit := to_uint8 (utf8_array i) in
        Decode_loop n' utf8_array array_len (i + 1)
          (to_uint32 (Z.shiftl ch 6 + code_unit))
          (is_malformed || negb (IsTrailByte code_unit))
          (rd ++ [i])
      else (None, rd)
  end.

(** [intptr_t Utf8::Decode(const uint8_t* utf8_array, intptr_t array_len,
    int32_t* dst)]. *)
Definition Decode (utf8_array : buffer) (array_len : Z) : DecodeResult :=
  let ch := Z.land (to_uint8 (utf8_array 0)) 0xFF in
  if 0x80 <=? ch then
    let num_trail_bytes := at_index kTrailBytes ch in
    match Decode_loop (Z.to_nat (num_trail_bytes - 1)) utf8_array array_len
            1 ch false [0] with
    | (None, rd) => {| consumed := 0; dst := -1; reads := rd |}
    | (Some (i, ch, is_malformed), rd) =>
        let ch := to_uint32 (ch - at_index kMagicBits num_trail_bytes) in
        if negb (negb is_malformed
                 && (i =? num_trail_bytes)
                 && negb (Utf.IsOutOfRange ch)
                 && negb (IsNonShortestForm ch i))
        then {| consumed := 0; dst := -1; reads := rd |}
        else {| consumed := i; dst := to_int32 ch; reads := rd |}
    end
  else {| consumed := 1; dst := to_int32 ch; reads := [0] |}.

(** The state in which the loop of [Utf8::DecodeToUTF16] is left: through
    [return false] inside the body ([invalid = true]) or through its
    condition. *)
Record LoopExit : Type := mkExit {
  invalid : bool;
  exit_i : Z;
  exit_j : Z;
  stored : writes
}.

(** The loop [for (; (i < array_len) && (j < len); i += num_bytes, ++j)]. *)
Fixpoint DecodeToUTF16_loop (fuel : nat) (utf8_array : buffer)
    (array_len len i j : Z) (w : writes) : outcome LoopExit :=
  if (i <? array_len) && (j <? len) then
    match fuel with
    | O => Fuel
    | S fuel' =>
        let is_supplementary :=
          IsSupplementarySequenceStart (to_uint8 (utf8_array i)) in
        let d := Decode (offset utf8_array i) (array_len - i) in
        let num_bytes := consumed d in
        let ch := dst d in
        if ch =? -1 then
          Ret {| invalid := true; exit_i := i; exit_j := j; stored := w |}
        else if is_supplementary then
          DecodeToUTF16_loop fuel' utf8_array array_len len
            (i + num_bytes) (j + 1 + 1) (w ++ shift j (Utf16.Encode ch))
        else
          DecodeToUTF16_loop fuel' utf8_array array_len len
            (i + num_bytes) (j + 1) (w ++ [(j, to_uint16 ch)])
    end
  else Ret {| invalid := false; exit_i := i; exit_j := j; stored := w |}.

(** [bool Utf8::DecodeToUTF16(const uint8_t* utf8_array, intptr_t array_len,
    uint16_t* dst, intptr_t len)]: the answer and the stores into [dst].
    Every iteration increments [j], so [len] iterations are enough. *)
Definition DecodeToUTF16 (utf8_array : buffer) (array_len len : Z)
    : outcome (bool * writes) :=
  e <- DecodeToUTF16_loop (Z.to_nat len) utf8_array array_len len 0 0 [] ;;
  if invalid e then Ret (false, stored e)             (* Invalid input. *)
  else if (exit_i e <? array_len) && (exit_j e =? len)
  then Ret (false, stored e)                          (* Output overflow. *)
  else Ret (true, stored e).                          (* Success. *)

(** [word Utf8::Length(TwoByteString* str)]: the loop, entered with the
    iterator and the length counted so far. *)
Fixpoint Length_loop (fuel : nat) (it : CodePointIterator.t) (length : Z)
    : outcome Z :=
  match fuel with
  | O => Fuel
  | S fuel' =>
      r <- CodePointIterator.Next it ;;
      if fst r then
        let ch := CodePointIterator.Current (snd r) in
        Length_loop fuel' (snd r) (length + Length ch)
      else Ret length
  end.

(** [word Utf8::Length(TwoByteString* str)]. *)
Definition Length_str (str : CodePointIterator.TwoByteString) : outcome Z :=
  Length_loop (S (List.length str)) (CodePointIterator.new str) 0.

(** Modelled from the spec: [enum Type] is declared in src/vm/unicode.h,
    which is not part of the sources.  The "width class (single-byte /
    Latin-1-range, basic-multilingual-plane, or supplementary-containing)".
    [Type] is reserved, hence the name. *)
Inductive Type_ : Set :=
| kLatin1
| kBMP
| kSupplementary.

(** Modelled from the spec: src/vm/unicode.h is not part of the sources.
    The byte starts the sequence of a code point in the Latin-1 range; the
    call in [Utf8::CodeUnitCount] comments its negation with "> U+00FF",
    and U+00FF is encoded as C3 BF. *)
Definition IsLatin1SequenceStart (code_unit : Z) : bool :=
  code_unit <=? 0xC3.

(** The loop [for (intptr_t i = 0; i < array_len; i++)] of
    [Utf8::CodeUnitCount], entered with [n = array_len - i] iterations to
    go. *)
Fixpoint CodeUnitCount_loop (n : nat) (utf8_array : buffer) (i len : Z)
    (char_type : Type_) : Z * Type_ :=
  match n with
  | O => (len, char_type)
  | S n' =>
      let code_unit := to_uint8 (utf8_array i) in
      if negb (IsTrailByte code_unit) then
        if negb (IsLatin1SequenceStart code_unit) then      (* > U+00FF *)
          if IsSupplementarySequenceStart code_unit then    (* >= U+10000 *)
            CodeUnitCount_loop n' utf8_array (i + 1) (len + 1 + 1)
              kSupplementary
          else
            CodeUnitCount_loop n' utf8_array (i + 1) (len + 1)
              match char_type with
              | kLatin1 => kBMP
              | _ => char_type
              end
        else CodeUnitCount_loop n' utf8_array (i + 1) (len + 1) char_type
      else CodeUnitCount_loop n' utf8_array (i + 1) len char_type
  end.

(** [intptr_t Utf8::CodeUnitCount(const uint8_t* utf8_array,
    intptr_t array_len, Type* type)]: the returned count and the value
    stored in [*type]. *)
Definition CodeUnitCount (utf8_array : buffer) (array_len : Z) : Z * Type_ :=
  CodeUnitCount_loop (Z.to_nat array_len) utf8_array 0 0 kLatin1.

End Utf8.

(** The stores of [Utf8::Encode(int32 ch, char* dst)] for a list of code points
    laid out back to back from [pos], and the position after the last. *)
Fixpoint encode_at (pos : Z) (cps : list Z) : writes * Z :=
  match cps with
  | [] => ([], pos)
  | ch :: rest =>
      let r := encode_at (pos + Utf8.Length ch) rest in
      (shift pos (fst (Utf8.Encode ch)) ++ fst r, snd r)
  end.

(** The indices [lo, lo + 1, ..., lo + n - 1]. *)
Fixpoint indices (lo : Z) (n : nat) : list Z :=
  match n with
  | O => []
  | S n' => lo :: indices (lo + 1) n'
  end.

(* ================================================================== *)
(** * class Stack *)
(* ================================================================== *)

Module Stack.

(** Modelled from the spec: [class Stack] (src/vm/object.h) is not part of
    the sources.  "An exclusively-owned, contiguous array of word-sized
    slots; exposes address-by-index and a top-of-stack index."  An
    [Object**] is the address of a slot, counted in words; [base] is the
    address of slot 0. *)
Record t : Type := mk {
  base : Z;
  slots : list Z;
  top : Z
}.

(** [stack->Pointer(index)]. *)
Definition Pointer (stack : t) (index : Z) : Z := base stack + index.

End Stack.

(* ================================================================== *)
(** * class Frame *)
(* ================================================================== *)

Module Frame.

Definition NULL : Z := 0.

(** [*p] for an [Object** p]: the slot of the stack at that address.
    Dereferencing [NULL], or an address outside the stack, is an access
    outside the object. *)
Definition load (stack : Stack.t) (p : Z) : outcome Z :=
  if p =? NULL then Undef
  else if p <? Stack.base stack then Undef
  else match nth_error (Stack.slots stack) (Z.to_nat (p - Stack.base stack)) with
       | Some v => Ret v
       | None => Undef
       end.

(** The private constructor [Frame(stack, frame_pointer, size)]. *)
Record t : Type := Frame {
  stack_ : Stack.t;
  frame_pointer_ : Z;
  size_ : Z
}.

(** [static Frame FirstFrame(Stack* stack)]. *)
Definition FirstFrame (stack : Stack.t) : outcome t :=
  let top_pointer := Stack.Pointer stack (Stack.top stack) in
  frame_pointer <- load stack top_pointer ;;
  Ret (Frame stack frame_pointer (top_pointer - frame_pointer)).

(** [bool IsFirstFrame() const]. *)
Definition IsFirstFrame (f : t) : bool := size_ f =? 2.

(** [Object** FramePointer() const]. *)
Definition FramePointer (f : t) : Z := frame_pointer_ f.

(** [Object** PreviousFramePointer() const]: read the previous frame
    pointer from the beginning of the frame. *)
Definition PreviousFramePointer (f : t) : outcome Z :=
  load (stack_ f) (frame_pointer_ f).

(** [bool IsLastFrame() const]. *)
Definition IsLastFrame (f : t) : outcome bool :=
  previous_frame_pointer <- PreviousFramePointer f ;;
  v <- load (stack_ f) previous_frame_pointer ;;
  Ret (v =? NULL).

(** [Frame Previous()]. *)
Definition Previous (f : t) : outcome t :=
  previous_frame_pointer <- PreviousFramePointer f ;;
  v <- load (stack_ f) previous_frame_pointer ;;
  if v =? NULL then Fatal
  else Ret (Frame (stack_ f) previous_frame_pointer
                  (frame_pointer_ f - previous_frame_pointer)).

(** [uint8* ByteCodePointer() const]. *)
Definition ByteCodePointer (f : t) : outcome Z :=
  load (stack_ f) (frame_pointer_ f + size_ f - 1).

(** [uint8* ReturnAddress() const]: read the return address from the
    beginning of the frame. *)
Definition ReturnAddress (f : t) : outcome Z :=
  load (stack_ f) (frame_pointer_ f - 1).




(** A stack with two active calls below the two-slot base frame.  Slot 1
    is the frame-pointer slot of the outermost call and holds [NULL]; slot
    6 is the frame-pointer slot of the call made from it; slot 9 is the
    frame-pointer slot of the base frame, and the top slot 11 holds its
    address. *)
Definition two_calls : Stack.t :=
  {| Stack.base := 100;
     Stack.slots := [ 7001; NULL; 0; 41; 42; 7002; 101; 0; 43; 106; 7003; 109 ];
     Stack.top := 11 |}.


End Frame.

(* ================================================================== *)
(** * The calling convention of the interpreter *)
(* ================================================================== *)

Module Interpreter.





End Interpreter.

(* ================================================================== *)
(** * Reference functions on lists *)
(* ================================================================== *)

(** The code points of a sequence of code units, by recursion on the
    sequence: a lead surrogate that is immediately followed by a trail
    surrogate is merged with it, every other unit stands for itself. *)
Fixpoint merge_surrogates (units : list Z) : list Z :=
  match units with
  | [] => []
  | u :: rest =>
      match rest with
      | u2 :: rest2 =>
          if Utf16.IsLeadSurrogate u && Utf16.IsTrailSurrogate u2
          then Utf16.Decode u u2 :: merge_surrogates rest2
          else u :: merge_surrogates rest
      | [] => [u]
      end
  end.

(** The code units of a sequence of code points: the two stores of
    [Utf16::Encode] for a code point above [Utf16::kMaxCodeUnit], the code
    point itself otherwise. *)
Fixpoint to_code_units (cps : list Z) : list Z :=
  match cps with
  | [] => []
  | ch :: rest =>
      (if ch <=? Utf16.kMaxCodeUnit then [ch]
       else map snd (Utf16.Encode ch)) ++ to_code_units rest
  end.

(** The sum of [Utf8::Length(ch)] over a sequence of code points. *)
Fixpoint total_length (cps : list Z) : Z :=
  match cps with
  | [] => 0
  | ch :: rest => Utf8.Length ch + total_length rest
  end.

(** The source bytes from index [i] up to [array_len] are a succession of
    sequences that [Utf8::Decode] accepts, each starting where the one
    before it ends. *)
Inductive well_formed (utf8_array : buffer) (array_len : Z) : Z -> Prop :=
| wf_end : forall i,
    array_len <= i ->
    well_formed utf8_array array_len i
| wf_seq : forall i,
    i < array_len ->
    0 < Utf8.consumed (Utf8.Decode (offset utf8_array i) (array_len - i)) ->
    well_formed utf8_array array_len
      (i + Utf8.consumed (Utf8.Decode (offset utf8_array i) (array_len - i))) ->
    well_formed utf8_array array_len i.

(** The count of [Utf8::CodeUnitCount] over the [n] bytes from index [i]. *)
Definition count_from (utf8_array : buffer) (i : Z) (n : nat) : Z :=
  fst (Utf8.CodeUnitCount_loop n utf8_array i 0 Utf8.kLatin1).

(** The bytes of a sequence of code points: those that
    [Utf8::Encode(ch, dst)] stores for each, one code point after the
    other. *)
Fixpoint utf8_bytes (cps : list Z) : list Z :=
  match cps with
  | [] => []
  | ch :: rest => map snd (fst (Utf8.Encode ch)) ++ utf8_bytes rest
  end.

(* ================================================================== *)
(** * Checking a property on an initial segment of the integers *)
(* ================================================================== *)

Lemma forall_below (P : Z -> bool) (n : nat) :
  forallb P (map Z.of_nat (seq 0 n)) = true ->
  forall z, 0 <= z < Z.of_nat n -> P z = true.
Proof.
  intros H z Hz.
  rewrite forallb_forall in H. apply H.
  apply in_map_iff. exists (Z.to_nat z). split.
  - lia.
  - apply in_seq. lia.
Qed.

(** Decides a closed property of all bytes, or of another small range, by
    evaluation. *)
Ltac by_cases_below n :=
  match goal with
  | |- forall z, 0 <= z < _ -> ?P = true =>
      let z := fresh "z" in
      intros z;
      pattern z;
      match goal with
      | |- (fun x => _ -> @?Q x = true) z =>
          exact (forall_below Q n (eq_refl true) z)
      end
  end.

(* ================================================================== *)
(** * The lead-byte table *)
(* ================================================================== *)

Lemma kTrailBytes_shape :
  forall b, 0 <= b < 256 ->
    (Utf8.at_index Utf8.kTrailBytes b =?
       (if b <? 0x80 then 1
        else if b <? 0xC0 then 0
        else if b <? 0xE0 then 2
        else if b <? 0xF0 then 3
        else if b <? 0xF8 then 4
        else if b <? 0xFC then 5
        else if b <? 0xFE then 6
        else 0)) = true.
Proof. by_cases_below 256%nat. Qed.

Lemma land_byte : forall b, 0 <= b < 256 -> Z.land b 0xFF = b.
Proof.
  intros b Hb. change 0xFF with (Z.ones 8).
  rewrite Z.land_ones by lia. apply Z.mod_small. exact Hb.
Qed.

Lemma to_uint8_small : forall b, 0 <= b < 256 -> to_uint8 b = b.
Proof. intros b Hb. apply Z.mod_small. exact Hb. Qed.

Lemma to_uint8_range : forall x, 0 <= to_uint8 x < 256.
Proof. intros x. unfold to_uint8. apply Z.mod_pos_bound. reflexivity. Qed.

(** A lead byte whose table entry is 0 is rejected after that byte alone
    has been read. *)
Lemma Decode_invalid_lead :
  forall (utf8_array : buffer) (array_len b : Z),
    to_uint8 (utf8_array 0) = b ->
    0x80 <= b ->
    Utf8.at_index Utf8.kTrailBytes b = 0 ->
    Utf8.Decode utf8_array array_len =
      {| Utf8.consumed := 0; Utf8.dst := -1; Utf8.reads := [0] |}.
Proof.
  intros utf8_array array_len b Hb Hge Ht.
  pose proof (to_uint8_range (utf8_array 0)) as Hr. rewrite Hb in Hr.
  unfold Utf8.Decode. rewrite Hb, (land_byte b Hr).
  destruct (Z.leb_spec 0x80 b) as [_|Hlt]; [|lia].
  rewrite Ht. reflexivity.
Qed.

(** C3, as the specification states it, fails: the entry of the ASCII byte
    0x41 is 1, not 0, and the entry of the lead byte 0xFC is 6, which is
    not between 1 and 5. *)
Lemma kTrailBytes_not_trailing_count :
  ~ (forall b, 0 <= b < 256 ->
       (b <= 0x7F -> Utf8.at_index Utf8.kTrailBytes b = 0) /\
       (0xC0 <= b <= 0xFD -> 1 <= Utf8.at_index Utf8.kTrailBytes b <= 5)).
Proof.
  intros H. destruct (H 0x41 ltac:(lia)) as [Hascii _].
  specialize (Hascii ltac:(lia)). discriminate Hascii.
Qed.

(** C3 (amended): the 256-entry table maps each lead byte to the length of
    the sequence it starts, the lead byte included: 1 for the ASCII bytes
    0x00-0x7F, 2 to 6 for the multi-byte lead bytes 0xC0-0xFD, and 0 for
    the stray continuation bytes 0x80-0xBF and for 0xFE and 0xFF.  A
    sequence that starts with a byte whose entry is 0 is rejected by
    [Utf8::Decode] after that one byte has been read: 0 bytes consumed and
    the output set to -1. *)
Theorem kTrailBytes_sequence_length :
  forall b, 0 <= b < 256 ->
    Utf8.at_index Utf8.kTrailBytes b =
      (if b <? 0x80 then 1
       else if b <? 0xC0 then 0
       else if b <? 0xE0 then 2
       else if b <? 0xF0 then 3
       else if b <? 0xF8 then 4
       else if b <? 0xFC then 5
       else if b <? 0xFE then 6
       else 0)
    /\ (Utf8.at_index Utf8.kTrailBytes b = 0 ->
        0x80 <= b /\
        forall (utf8_array : buffer) (array_len : Z),
          to_uint8 (utf8_array 0) = b ->
          Utf8.Decode utf8_array array_len =
            {| Utf8.consumed := 0; Utf8.dst := -1; Utf8.reads := [0] |}).
Proof.
  intros b Hb.
  pose proof (kTrailBytes_shape b Hb) as Hs. apply Z.eqb_eq in Hs.
  split; [exact Hs|].
  intros H0.
  assert (Hge : 0x80 <= b).
  { rewrite H0 in Hs.
    destruct (Z.ltb_spec b 0x80) as [Hlt|Hge]; [discriminate Hs | exact Hge]. }
  split; [exact Hge|].
  intros utf8_array array_len Hlead.
  exact (Decode_invalid_lead utf8_array array_len b Hlead Hge H0).
Qed.

Lemma kTrailBytes_sequence_length_witness :
  0 <= 0xFE < 256 /\
  Utf8.at_index Utf8.kTrailBytes 0xFE = 0 /\
  Utf8.Decode (of_list [0xFE; 0x80]) 2 =
    {| Utf8.consumed := 0; Utf8.dst := -1; Utf8.reads := [0] |}.
Proof.
  split; [lia|].
  destruct (kTrailBytes_sequence_length 0xFE ltac:(lia)) as [Ht Hd].
  split; [exact Ht|].
  destruct (Hd Ht) as [_ Hdec].
  apply Hdec. reflexivity.
Defined.

(* ================================================================== *)
(** * Single sequences: overlong and truncated input *)
(* ================================================================== *)

(** C5: [Utf8::Decode] applied to the 2-byte buffer [0xC0, 0x80], an
    overlong encoding of U+0000, rejects the sequence: it returns 0 (zero
    bytes consumed) and sets the output code point to -1.  Both bytes have
    been read; whatever follows them in memory has not. *)
Theorem Decode_overlong_C0_80 :
  forall rest : list Z,
    Utf8.Decode (of_list (0xC0 :: 0x80 :: rest)) 2 =
      {| Utf8.consumed := 0; Utf8.dst := -1; Utf8.reads := [0; 1] |}.
Proof. intros rest. reflexivity. Qed.

(** C6: [Utf8::Decode] applied to a buffer of length 1 that holds the lead
    byte 0xE2 reports failure (0 bytes consumed, output -1), and the only
    index of the source buffer it reads is 0: no index at or beyond the
    supplied length 1 is accessed, whatever the memory behind the buffer
    holds. *)
Theorem Decode_truncated_E2 :
  forall utf8_array : buffer,
    to_uint8 (utf8_array 0) = 0xE2 ->
    Utf8.Decode utf8_array 1 =
      {| Utf8.consumed := 0; Utf8.dst := -1; Utf8.reads := [0] |}
    /\ Forall (fun i => 0 <= i < 1) (Utf8.reads (Utf8.Decode utf8_array 1)).
Proof.
  intros utf8_array H.
  assert (E : Utf8.Decode utf8_array 1 =
              {| Utf8.consumed := 0; Utf8.dst := -1; Utf8.reads := [0] |}).
  { unfold Utf8.Decode. rewrite H. reflexivity. }
  split; [exact E|].
  rewrite E. constructor; [simpl; lia | constructor].
Qed.

Lemma Decode_truncated_E2_witness :
  to_uint8 (of_list [0xE2] 0) = 0xE2 /\
  Utf8.Decode (of_list [0xE2]) 1 =
    {| Utf8.consumed := 0; Utf8.dst := -1; Utf8.reads := [0] |}.
Proof.
  split; [reflexivity|].
  exact (proj1 (Decode_truncated_E2 (of_list [0xE2]) eq_refl)).
Defined.

(* ================================================================== *)
(** * Surrogate pairs under the iterator *)
(* ================================================================== *)

(** C4: iterating a [CodePointIterator] over [0xD83D, 0xDE00] yields
    exactly one code point, U+1F600: the first [Next()] answers [true]
    with that code point current, and the second answers [false].
    Iterating over [0xD83D, 0x0041] yields exactly two code points,
    U+D83D and then U+0041. *)
Theorem CodePointIterator_surrogates :
  CodePointIterator.code_points 3 (CodePointIterator.new [0xD83D; 0xDE00])
    = Ret [0x1F600]
  /\ (exists it1 it2,
        CodePointIterator.Next (CodePointIterator.new [0xD83D; 0xDE00])
          = Ret (true, it1)
        /\ CodePointIterator.Current it1 = 0x1F600
        /\ CodePointIterator.Next it1 = Ret (false, it2))
  /\ CodePointIterator.code_points 3 (CodePointIterator.new [0xD83D; 0x0041])
       = Ret [0xD83D; 0x0041]
  /\ (exists it1 it2 it3,
        CodePointIterator.Next (CodePointIterator.new [0xD83D; 0x0041])
          = Ret (true, it1)
        /\ CodePointIterator.Current it1 = 0xD83D
        /\ CodePointIterator.Next it1 = Ret (true, it2)
        /\ CodePointIterator.Current it2 = 0x0041
        /\ CodePointIterator.Next it2 = Ret (false, it3)).
Proof.
  split; [reflexivity|].
  split.
  { eexists. eexists.
    split; [reflexivity|]. split; [reflexivity|]. reflexivity. }
  split; [reflexivity|].
  eexists. eexists. eexists.
  split; [reflexivity|]. split; [reflexivity|].
  split; [reflexivity|]. split; [reflexivity|]. reflexivity.
Qed.

(* ================================================================== *)
(** * Decoding a buffer to UTF-16 *)
(* ================================================================== *)

(** The loop of [Utf8::DecodeToUTF16] is answered within [len] iterations:
    every iteration increments [j]. *)
Lemma DecodeToUTF16_loop_fuel :
  forall (fuel : nat) (utf8_array : buffer) (array_len len i j : Z) (w : writes),
    len - j <= Z.of_nat fuel ->
    exists e, Utf8.DecodeToUTF16_loop fuel utf8_array array_len len i j w = Ret e.
Proof.
  induction fuel as [|fuel IH]; intros utf8_array array_len len i j w Hf.
  - cbn [Utf8.DecodeToUTF16_loop].
    destruct (Z.ltb_spec j len) as [Hlt|Hge]; [lia|].
    rewrite andb_false_r. eexists. reflexivity.
  - cbn [Utf8.DecodeToUTF16_loop].
    destruct ((i <? array_len) && (j <? len)) eqn:Hc;
      [|eexists; reflexivity].
    destruct (Utf8.dst (Utf8.Decode (offset utf8_array i) (array_len - i)) =? -1);
      [eexists; reflexivity|].
    destruct (Utf8.IsSupplementarySequenceStart (to_uint8 (utf8_array i)));
      apply IH; lia.
Qed.

(** [Utf8::DecodeToUTF16] returns for every input. *)
Lemma DecodeToUTF16_returns :
  forall (utf8_array : buffer) (array_len len : Z),
    exists r, Utf8.DecodeToUTF16 utf8_array array_len len = Ret r.
Proof.
  intros utf8_array array_len len. unfold Utf8.DecodeToUTF16.
  destruct (DecodeToUTF16_loop_fuel (Z.to_nat len) utf8_array array_len len
              0 0 [] ltac:(lia)) as [e He].
  rewrite He. cbn [bind].
  destruct (Utf8.invalid e); [eexists; reflexivity|].
  destruct ((Utf8.exit_i e <? array_len) && (Utf8.exit_j e =? len));
    eexists; reflexivity.
Qed.

(** C2 (the code departs from it): on the five source bytes
    F0 9F 98 80 41 (U+1F600 followed by 'A') and a destination of capacity
    1, the loop is left with only four of the five source bytes consumed
    ([i = 4]) and with [j = 2], so the overflow test [j == len] fails and
    [Utf8::DecodeToUTF16] returns [true]; the surrogate pair has been
    stored at the indices 0 and 1, the second of which lies beyond the
    capacity. *)
Theorem DecodeToUTF16_overflow_undetected :
  Utf8.DecodeToUTF16_loop 1 (of_list [0xF0; 0x9F; 0x98; 0x80; 0x41]) 5 1 0 0 []
    = Ret {| Utf8.invalid := false; Utf8.exit_i := 4; Utf8.exit_j := 2;
             Utf8.stored := [(0, 0xD83D); (1, 0xDE00)] |}
  /\ Utf8.DecodeToUTF16 (of_list [0xF0; 0x9F; 0x98; 0x80; 0x41]) 5 1
       = Ret (true, [(0, 0xD83D); (1, 0xDE00)]).
Proof. split; reflexivity. Qed.

(* ================================================================== *)
(** * Walking the frames of a stack *)
(* ================================================================== *)

Section FrameWalk.

Variable stack : Stack.t.




End FrameWalk.





(** C8, as the specification states it, fails: the top frame of
    [Frame.two_calls] after one step has the frame pointer 106, and its
    previous-frame-pointer slot holds 101, which is not the null sentinel;
    yet [Previous()] is fatal there and returns no frame, because the slot
    at 101 holds [NULL]. *)
Lemma Previous_fatal_on_non_null_slot :
  ~ (forall (f : Frame.t) (p : Z),
       Frame.PreviousFramePointer f = Ret p ->
       (p = Frame.NULL -> Frame.Previous f = Fatal)
       /\ (p <> Frame.NULL ->
           Frame.Previous f =
             Ret (Frame.Frame (Frame.stack_ f) p (Frame.frame_pointer_ f - p)))).
Proof.
  intros H.
  destruct (H (Frame.Frame Frame.two_calls 106 3) 101 eq_refl) as [_ Hret].
  specialize (Hret ltac:(discriminate)). discriminate Hret.
Qed.

(** C8 (amended): calling [Previous()] on a frame for which [IsLastFrame()]
    is true, that is, a frame whose previous frame pointer addresses a slot
    that holds the null sentinel, is a fatal precondition violation that
    terminates the process rather than returning any frame value; for every
    frame for which [IsLastFrame()] is false, [Previous()] returns a frame
    anchored at the previous frame pointer whose size is the slot distance
    between the current and the new frame pointer. *)
Theorem Previous_after_IsLastFrame :
  forall (f : Frame.t) (last : bool),
    Frame.IsLastFrame f = Ret last ->
    exists p,
      Frame.PreviousFramePointer f = Ret p
      /\ Frame.Previous f =
           if last then Fatal
           else Ret (Frame.Frame (Frame.stack_ f) p (Frame.frame_pointer_ f - p)).
Proof.
  intros f last H.
  unfold Frame.IsLastFrame in H. unfold Frame.Previous.
  destruct (Frame.PreviousFramePointer f) as [p| | |];
    cbn [bind] in H; try discriminate H.
  exists p. split; [reflexivity|]. cbn [bind].
  destruct (Frame.load (Frame.stack_ f) p) as [v| | |];
    cbn [bind] in H; try discriminate H.
  cbn [bind]. injection H as <-. reflexivity.
Qed.

Lemma Previous_after_IsLastFrame_witness :
  Frame.IsLastFrame (Frame.Frame Frame.two_calls 109 2) = Ret false
  /\ Frame.Previous (Frame.Frame Frame.two_calls 109 2)
       = Ret (Frame.Frame Frame.two_calls 106 3)
  /\ Frame.IsLastFrame (Frame.Frame Frame.two_calls 106 3) = Ret true
  /\ Frame.Previous (Frame.Frame Frame.two_calls 106 3) = Fatal.
Proof.
  split; [reflexivity|].
  split.
  { destruct (Previous_after_IsLastFrame
                (Frame.Frame Frame.two_calls 109 2) false eq_refl)
      as (p & Hp & Hprev).
    injection Hp as <-. exact Hprev. }
  split; [reflexivity|].
  destruct (Previous_after_IsLastFrame
              (Frame.Frame Frame.two_calls 106 3) true eq_refl)
    as (p & _ & Hprev).
  exact Hprev.
Defined.

(* ------------------------------------------------------------------ *)
(** ** Frames built by a call *)


















(* ================================================================== *)
(** * The iterator returns, and moves forward *)
(* ================================================================== *)

Lemma get_code_unit_inside :
  forall (str : CodePointIterator.TwoByteString) (index : Z),
    0 <= index < CodePointIterator.length str ->
    exists u, CodePointIterator.get_code_unit str index = Ret u.
Proof.
  intros str index [Hlo Hhi]. unfold CodePointIterator.get_code_unit.
  destruct (Z.ltb_spec index 0) as [Hneg|_]; [lia|].
  destruct (nth_error str (Z.to_nat index)) as [u|] eqn:Hn.
  - exists u. reflexivity.
  - apply nth_error_None in Hn. unfold CodePointIterator.length in Hhi. lia.
Qed.

Lemma Utf16_Length_cases : forall ch, Utf16.Length ch = 1 \/ Utf16.Length ch = 2.
Proof.
  intros ch. unfold Utf16.Length.
  destruct (ch <=? Utf16.kMaxCodeUnit); [left|right]; reflexivity.
Qed.

(** On an iterator whose bound is the length of its string, [Next()]
    returns; it keeps the string and the bound, and an answer [true] comes
    with a larger index. *)
Lemma Next_returns :
  forall it : CodePointIterator.t,
    CodePointIterator.end_ it = CodePointIterator.length (CodePointIterator.str_ it) ->
    -1 <= CodePointIterator.index_ it ->
    exists (b : bool) (it' : CodePointIterator.t),
      CodePointIterator.Next it = Ret (b, it')
      /\ CodePointIterator.str_ it' = CodePointIterator.str_ it
      /\ CodePointIterator.end_ it' = CodePointIterator.end_ it
      /\ (if b
          then CodePointIterator.index_ it < CodePointIterator.index_ it'
               /\ CodePointIterator.index_ it' < CodePointIterator.end_ it
          else True).
Proof.
  intros [str ch index e] He Hi.
  cbn [CodePointIterator.end_ CodePointIterator.str_ CodePointIterator.index_] in *.
  unfold CodePointIterator.Next.
  cbn [CodePointIterator.end_ CodePointIterator.str_ CodePointIterator.index_
       CodePointIterator.ch_].
  destruct (Z.ltb_spec index (-1)) as [Hbad|_]; [lia|].
  destruct (Z.ltb_spec index (e - Utf16.Length ch)) as [Hin|Hout].
  - pose proof (Utf16_Length_cases ch) as Hlen.
    destruct (get_code_unit_inside str (index + Utf16.Length ch)
                ltac:(lia)) as [u Hu].
    rewrite Hu. cbn [bind].
    destruct (Utf16.IsLeadSurrogate u && (index + Utf16.Length ch <? e - 1))
      eqn:Hpair.
    + apply andb_true_iff in Hpair. destruct Hpair as [_ Hroom].
      apply Z.ltb_lt in Hroom.
      destruct (get_code_unit_inside str (index + Utf16.Length ch + 1)
                  ltac:(lia)) as [u2 Hu2].
      rewrite Hu2. cbn [bind].
      destruct (Utf16.IsTrailSurrogate u2);
        eexists; eexists; (split; [reflexivity|]);
        cbn [CodePointIterator.end_ CodePointIterator.str_
             CodePointIterator.index_];
        repeat split; lia.
    + eexists; eexists; (split; [reflexivity|]).
      cbn [CodePointIterator.end_ CodePointIterator.str_
           CodePointIterator.index_].
      repeat split; lia.
  - exists false. eexists. split; [reflexivity|].
    cbn [CodePointIterator.end_ CodePointIterator.str_]. repeat split.
Qed.

(** The iteration ends within one call of [Next()] per remaining code unit
    and one more. *)
Lemma code_points_returns :
  forall (fuel : nat) (it : CodePointIterator.t),
    CodePointIterator.end_ it = CodePointIterator.length (CodePointIterator.str_ it) ->
    -1 <= CodePointIterator.index_ it ->
    CodePointIterator.end_ it - CodePointIterator.index_ it <= Z.of_nat fuel + 1 ->
    exists cps, CodePointIterator.code_points (S fuel) it = Ret cps.
Proof.
  induction fuel as [|fuel IH]; intros it He Hi Hm.
  - destruct (Next_returns it He Hi) as (b & it' & HN & _ & _ & Hb).
    cbn [CodePointIterator.code_points]. rewrite HN. cbn [bind fst snd].
    destruct b.
    + lia.
    + exists []. reflexivity.
  - destruct (Next_returns it He Hi) as (b & it' & HN & Hs & He' & Hb).
    change (CodePointIterator.code_points (S (S fuel)) it)
      with (r <- CodePointIterator.Next it ;;
            if fst r then
              rest <- CodePointIterator.code_points (S fuel) (snd r) ;;
              Ret (CodePointIterator.Current (snd r) :: rest)
            else Ret []).
    rewrite HN. cbn [bind fst snd].
    destruct b.
    + destruct (IH it') as [rest Hrest].
      * rewrite He', Hs. exact He.
      * lia.
      * rewrite He'. lia.
      * rewrite Hrest. cbn [bind]. eexists. reflexivity.
    + exists []. reflexivity.
Qed.

Lemma code_points_new_returns :
  forall src : CodePointIterator.TwoByteString,
    exists cps,
      CodePointIterator.code_points (S (List.length src))
        (CodePointIterator.new src) = Ret cps.
Proof.
  intros src. apply code_points_returns.
  - reflexivity.
  - cbn. lia.
  - unfold CodePointIterator.new, CodePointIterator.length. cbn. lia.
Qed.

(* ================================================================== *)
(** * Encoding a string into a bounded buffer *)
(* ================================================================== *)

Lemma Utf8_Length_range : forall ch, 1 <= Utf8.Length ch <= 4.
Proof.
  intros ch. unfold Utf8.Length.
  destruct (ch <=? Utf8.kMaxOneByteChar); [lia|].
  destruct (ch <=? Utf8.kMaxTwoByteChar); [lia|].
  destruct (ch <=? Utf8.kMaxThreeByteChar); lia.
Qed.

(** [Utf8::Encode(ch, dst)] stores at [dst[0]], ..., [dst[Length(ch) - 1]],
    in this order, and returns [Length(ch)]. *)
Lemma Encode_shape :
  forall ch,
    map fst (fst (Utf8.Encode ch)) = indices 0 (Z.to_nat (Utf8.Length ch))
    /\ snd (Utf8.Encode ch) = Utf8.Length ch.
Proof.
  intros ch. unfold Utf8.Encode, Utf8.Length.
  destruct (ch <=? Utf8.kMaxOneByteChar); [split; reflexivity|].
  destruct (ch <=? Utf8.kMaxTwoByteChar); [split; reflexivity|].
  destruct (ch <=? Utf8.kMaxThreeByteChar); split; reflexivity.
Qed.

Lemma indices_length : forall n lo, List.length (indices lo n) = n.
Proof.
  induction n as [|n IH]; intros lo; cbn [indices List.length].
  - reflexivity.
  - rewrite IH. reflexivity.
Qed.

Lemma indices_app :
  forall n m lo,
    indices lo (n + m) = indices lo n ++ indices (lo + Z.of_nat n) m.
Proof.
  induction n as [|n IH]; intros m lo.
  - cbn [indices Nat.add app]. replace (lo + Z.of_nat 0) with lo by lia.
    reflexivity.
  - cbn [indices Nat.add app]. rewrite IH.
    replace (lo + 1 + Z.of_nat n) with (lo + Z.of_nat (S n)) by lia.
    reflexivity.
Qed.

Lemma indices_shift :
  forall n pos lo, map (fun i => pos + i) (indices lo n) = indices (pos + lo) n.
Proof.
  induction n as [|n IH]; intros pos lo; cbn [indices map].
  - reflexivity.
  - rewrite IH. replace (pos + (lo + 1)) with (pos + lo + 1) by lia.
    reflexivity.
Qed.

Lemma indices_In :
  forall n lo i, In i (indices lo n) -> lo <= i < lo + Z.of_nat n.
Proof.
  induction n as [|n IH]; intros lo i Hin; cbn [indices In] in Hin.
  - contradiction.
  - destruct Hin as [<-|Hin]; [lia|]. apply IH in Hin. lia.
Qed.

Lemma map_fst_shift :
  forall pos w, map fst (shift pos w) = map (fun i => pos + i) (map fst w).
Proof.
  intros pos w. unfold shift. rewrite !map_map. reflexivity.
Qed.

(** Code points laid out back to back fill the indices from [pos] up to the
    final position, each once and in increasing order. *)
Lemma encode_at_layout :
  forall cps pos,
    pos <= snd (encode_at pos cps)
    /\ map fst (fst (encode_at pos cps))
       = indices pos (Z.to_nat (snd (encode_at pos cps) - pos)).
Proof.
  induction cps as [|ch rest IH]; intros pos; cbn [encode_at fst snd].
  - split; [lia|]. rewrite Z.sub_diag. reflexivity.
  - destruct (IH (pos + Utf8.Length ch)) as [Hle Hmap].
    pose proof (Utf8_Length_range ch) as Hr.
    split; [lia|].
    rewrite map_app, Hmap, map_fst_shift, (proj1 (Encode_shape ch)), indices_shift.
    replace (Z.to_nat (snd (encode_at (pos + Utf8.Length ch) rest) - pos))
      with (Z.to_nat (Utf8.Length ch)
            + Z.to_nat (snd (encode_at (pos + Utf8.Length ch) rest)
                        - (pos + Utf8.Length ch)))%nat by lia.
    rewrite indices_app, Z.add_0_r, Z2Nat.id by lia.
    reflexivity.
Qed.

(** The loop of [Utf8::Encode(TwoByteString*, char*, word)] against the
    code points of the iterator: it lays out the first [k] of them whole,
    and stops at the end of the string or at the first code point that
    would end beyond [len]. *)
Lemma Encode_loop_prefix :
  forall (fuel : nat) (it : CodePointIterator.t) (len pos : Z) (w : writes)
         (cps : list Z),
    CodePointIterator.code_points fuel it = Ret cps ->
    pos <= len ->
    exists k : nat,
      Utf8.Encode_loop fuel it len pos w
        = Ret (w ++ fst (encode_at pos (firstn k cps)),
               snd (encode_at pos (firstn k cps)))
      /\ snd (encode_at pos (firstn k cps)) <= len
      /\ (k = List.length cps
          \/ exists ch, nth_error cps k = Some ch
                        /\ len < snd (encode_at pos (firstn k cps))
                                 + Utf8.Length ch).
Proof.
  induction fuel as [|fuel IH]; intros it len pos w cps Hcps Hpos.
  - discriminate Hcps.
  - cbn [CodePointIterator.code_points] in Hcps.
    cbn [Utf8.Encode_loop].
    destruct (CodePointIterator.Next it) as [[b it']| | |];
      cbn [bind fst snd] in Hcps |- *; try discriminate Hcps.
    destruct b.
    + destruct (CodePointIterator.code_points fuel it') as [rest| | |] eqn:Hrest;
        cbn [bind] in Hcps; try discriminate Hcps.
      injection Hcps as <-.
      set (ch := CodePointIterator.Current it').
      destruct (Z.ltb_spec len (pos + Utf8.Length ch)) as [Hfull|Hfits].
      * exists 0%nat. cbn [firstn encode_at fst snd].
        rewrite app_nil_r. split; [reflexivity|]. split; [exact Hpos|].
        right. exists ch. split; [reflexivity | exact Hfull].
      * destruct (IH it' len (pos + Utf8.Length ch)
                    (w ++ shift pos (fst (Utf8.Encode ch))) rest Hrest Hfits)
          as (k & Hloop & Hle & Hstop).
        exists (S k). cbn [firstn encode_at fst snd].
        rewrite Hloop, <- app_assoc.
        split; [reflexivity|]. split; [exact Hle|].
        destruct Hstop as [->|Hstop]; [left; reflexivity | right; exact Hstop].
    + injection Hcps as <-.
      exists 0%nat. cbn [firstn encode_at fst snd].
      rewrite app_nil_r. split; [reflexivity|]. split; [exact Hpos|].
      left. reflexivity.
Qed.

(** C10: for every UTF-16-backed source string and capacity len >= 0,
    [Utf8::Encode(src, dst, len)] returns; it writes only to destination
    byte indices strictly below len (the indices 0, 1, ..., pos - 1, each
    once and in this order); what it writes is the whole encodings of the
    first k code points of the string laid out back to back, where the
    code point number k is the first whose encoding would end beyond len
    (or k is the number of code points of the string), so that no code
    point is split; and it returns the total number pos of bytes written,
    which is at most len. *)
Theorem Encode_str_within_capacity :
  forall (src : CodePointIterator.TwoByteString) (len : Z),
    0 <= len ->
    exists (cps : list Z) (k : nat) (w : writes) (pos : Z),
      CodePointIterator.code_points (S (List.length src))
        (CodePointIterator.new src) = Ret cps
      /\ Utf8.Encode_str src len = Ret (w, pos)
      /\ encode_at 0 (firstn k cps) = (w, pos)
      /\ (k = List.length cps
          \/ exists ch, nth_error cps k = Some ch
                        /\ len < pos + Utf8.Length ch)
      /\ map fst w = indices 0 (List.length w)
      /\ Forall (fun iv => 0 <= fst iv < len) w
      /\ pos = Z.of_nat (List.length w)
      /\ pos <= len.
Proof.
  intros src len Hlen.
  destruct (code_points_new_returns src) as [cps Hcps].
  destruct (Encode_loop_prefix (S (List.length src)) (CodePointIterator.new src)
              len 0 [] cps Hcps Hlen) as (k & Hloop & Hle & Hstop).
  destruct (encode_at_layout (firstn k cps) 0) as [Hge Hmap].
  remember (encode_at 0 (firstn k cps)) as r eqn:Hr.
  destruct r as [w pos]. cbn [fst snd] in *.
  rewrite Z.sub_0_r in Hmap.
  assert (Hcount : List.length w = Z.to_nat pos).
  { rewrite <- (length_map fst w), Hmap. apply indices_length. }
  exists cps, k, w, pos.
  split; [exact Hcps|].
  split; [exact Hloop|].
  split; [symmetry; exact Hr|].
  split; [exact Hstop|].
  split; [rewrite Hcount; exact Hmap|].
  split.
  { apply Forall_forall. intros iv Hin.
    assert (Hi : In (fst iv) (indices 0 (Z.to_nat pos))).
    { rewrite <- Hmap. apply in_map. exact Hin. }
    apply indices_In in Hi. lia. }
  split; lia.
Qed.

Lemma Encode_str_within_capacity_witness :
  0 <= 7 /\
  Utf8.Encode_str [0xD83D; 0xDE00; 0x41; 0x20AC] 7
    = Ret ([(0, 240); (1, 159); (2, 152); (3, 128); (4, 65)], 5).
Proof.
  split; [lia|].
  destruct (Encode_str_within_capacity [0xD83D; 0xDE00; 0x41; 0x20AC] 7
              ltac:(lia))
    as (cps & k & w & pos & _ & Henc & _).
  rewrite Henc. revert Henc. vm_compute. intros Henc. exact (eq_sym Henc).
Defined.

(* ================================================================== *)
(** * Encoding one code point and decoding it again *)
(* ================================================================== *)

(** Replace a comparison of integers by its value, by linear arithmetic. *)
Ltac ztrue b :=
  replace b with true
    by (symmetry;
        first [apply Z.leb_le | apply Z.ltb_lt | apply Z.eqb_eq]; lia).
Ltac zfalse b :=
  replace b with false
    by (symmetry;
        first [apply Z.leb_gt | apply Z.ltb_ge | apply Z.eqb_neq]; lia).

(** Linear arithmetic with division and remainder by constants. *)
Ltac zdiv := Z.to_euclidean_division_equations; lia.

Lemma lead2_byte :
  forall q, 0 <= q < 32 -> (to_uint8 (Z.lor 0xC0 q) =? 0xC0 + q) = true.
Proof. by_cases_below 32%nat. Qed.

Lemma lead3_byte :
  forall q, 0 <= q < 16 -> (to_uint8 (Z.lor 0xE0 q) =? 0xE0 + q) = true.
Proof. by_cases_below 16%nat. Qed.

Lemma lead4_byte :
  forall q, 0 <= q < 8 -> (to_uint8 (Z.lor 0xF0 q) =? 0xF0 + q) = true.
Proof. by_cases_below 8%nat. Qed.

Lemma lead2_table :
  forall q, 0 <= q < 32 ->
    (Utf8.at_index Utf8.kTrailBytes (0xC0 + q) =? 2) = true.
Proof. by_cases_below 32%nat. Qed.

Lemma lead3_table :
  forall q, 0 <= q < 16 ->
    (Utf8.at_index Utf8.kTrailBytes (0xE0 + q) =? 3) = true.
Proof. by_cases_below 16%nat. Qed.

Lemma lead4_table :
  forall q, 0 <= q < 8 ->
    (Utf8.at_index Utf8.kTrailBytes (0xF0 + q) =? 4) = true.
Proof. by_cases_below 8%nat. Qed.

Lemma trail_low_bits :
  forall y, 0 <= y < 256 ->
    (Z.lor 0x80 (Z.land y 191) =? 0x80 + y mod 64) = true.
Proof. by_cases_below 256%nat. Qed.

Lemma IsTrailByte_trail :
  forall r, 0 <= r < 64 -> Utf8.IsTrailByte (0x80 + r) = true.
Proof. by_cases_below 64%nat. Qed.

(** The byte stored by [0x80 | (x & kMask)]: the mask clears bit 6 only,
    and the conversion to [char] drops the bits above bit 7. *)
Lemma trail_byte :
  forall x, to_uint8 (Z.lor 0x80 (Z.land x Utf8.kMask)) = 0x80 + x mod 64.
Proof.
  intros x. unfold to_uint8.
  rewrite <- Z.land_ones by lia.
  rewrite Z.land_lor_distr_l, <- Z.land_assoc.
  change (Z.land Utf8.kMask (Z.ones 8)) with (Z.land (Z.ones 8) 191).
  change (Z.land 0x80 (Z.ones 8)) with 0x80.
  rewrite Z.land_assoc, Z.land_ones by lia.
  pose proof (Z.mod_pos_bound x (2 ^ 8) eq_refl) as Hy.
  pose proof (trail_low_bits (x mod 2 ^ 8) Hy) as H.
  apply Z.eqb_eq in H. rewrite H.
  rewrite Z.mod_mod_divide; [reflexivity|].
  exists 4. reflexivity.
Qed.

Lemma to_uint32_small : forall x, 0 <= x < 2 ^ 32 -> to_uint32 x = x.
Proof. intros x Hx. apply Z.mod_small. exact Hx. Qed.

Lemma to_int32_small : forall x, 0 <= x < 2 ^ 31 -> to_int32 x = x.
Proof.
  intros x Hx. unfold to_int32.
  rewrite Z.mod_small; lia.
Qed.

Lemma IsOutOfRange_inside :
  forall v, 0 <= v <= 0x10FFFF -> Utf.IsOutOfRange v = false.
Proof.
  intros v Hv. unfold Utf.IsOutOfRange, Utf.kMaxCodePoint.
  zfalse (v <? 0). zfalse (0x10FFFF <? v). reflexivity.
Qed.

(** The bytes that [Utf8::Encode(ch, dst)] stores, by length. *)
Lemma Encode_one :
  forall ch, 0 <= ch <= 0x7F ->
    Utf8.Encode ch = ([(0, ch)], 1).
Proof.
  intros ch Hch. unfold Utf8.Encode, Utf8.kMaxOneByteChar.
  ztrue (ch <=? 0x7F). rewrite to_uint8_small by lia. reflexivity.
Qed.

Lemma Encode_two :
  forall ch, 0x80 <= ch <= 0x7FF ->
    Utf8.Encode ch = ([(0, 0xC0 + ch / 64); (1, 0x80 + ch mod 64)], 2).
Proof.
  intros ch Hch.
  unfold Utf8.Encode, Utf8.kMaxOneByteChar, Utf8.kMaxTwoByteChar.
  zfalse (ch <=? 0x7F). ztrue (ch <=? 0x7FF).
  rewrite trail_byte, Z.shiftr_div_pow2 by lia. change (2 ^ 6) with 64.
  pose proof (lead2_byte (ch / 64) ltac:(zdiv)) as H. apply Z.eqb_eq in H.
  rewrite H. reflexivity.
Qed.

Lemma Encode_three :
  forall ch, 0x800 <= ch <= 0xFFFF ->
    Utf8.Encode ch =
      ([(0, 0xE0 + ch / 4096); (1, 0x80 + (ch / 64) mod 64);
        (2, 0x80 + ch mod 64)], 3).
Proof.
  intros ch Hch.
  unfold Utf8.Encode, Utf8.kMaxOneByteChar, Utf8.kMaxTwoByteChar,
    Utf8.kMaxThreeByteChar.
  zfalse (ch <=? 0x7F). zfalse (ch <=? 0x7FF). ztrue (ch <=? 0xFFFF).
  rewrite !trail_byte, !Z.shiftr_div_pow2 by lia.
  change (2 ^ 6) with 64. change (2 ^ 12) with 4096.
  pose proof (lead3_byte (ch / 4096) ltac:(zdiv)) as H. apply Z.eqb_eq in H.
  rewrite H. reflexivity.
Qed.

Lemma Encode_four :
  forall ch, 0x10000 <= ch <= 0x10FFFF ->
    Utf8.Encode ch =
      ([(0, 0xF0 + ch / 262144); (1, 0x80 + (ch / 4096) mod 64);
        (2, 0x80 + (ch / 64) mod 64); (3, 0x80 + ch mod 64)], 4).
Proof.
  intros ch Hch.
  unfold Utf8.Encode, Utf8.kMaxOneByteChar, Utf8.kMaxTwoByteChar,
    Utf8.kMaxThreeByteChar.
  zfalse (ch <=? 0x7F). zfalse (ch <=? 0x7FF). zfalse (ch <=? 0xFFFF).
  rewrite !trail_byte, !Z.shiftr_div_pow2 by lia.
  change (2 ^ 6) with 64. change (2 ^ 12) with 4096.
  change (2 ^ 18) with 262144.
  pose proof (lead4_byte (ch / 262144) ltac:(zdiv)) as H. apply Z.eqb_eq in H.
  rewrite H. reflexivity.
Qed.

(** One iteration of the loop over the trailing bytes, on a byte of the
    form [10xxxxxx]. *)
Lemma Decode_loop_step :
  forall (n : nat) (utf8_array : buffer) (array_len i ch r : Z)
         (is_malformed : bool) (rd : list Z),
    utf8_array i = 0x80 + r ->
    0 <= r < 64 ->
    i < array_len ->
    0 <= ch < 2 ^ 24 ->
    Utf8.Decode_loop (S n) utf8_array array_len i ch is_malformed rd =
      Utf8.Decode_loop n utf8_array array_len (i + 1)
        (64 * ch + 0x80 + r) is_malformed (rd ++ [i]).
Proof.
  intros n utf8_array array_len i ch r is_malformed rd Hb Hr Hi Hch.
  cbn [Utf8.Decode_loop].
  ztrue (i <? array_len).
  rewrite Hb, (to_uint8_small (0x80 + r)) by lia.
  rewrite (IsTrailByte_trail r Hr). cbn [negb]. rewrite orb_false_r.
  rewrite Z.shiftl_mul_pow2 by lia. change (2 ^ 6) with 64.
  rewrite to_uint32_small by lia.
  f_equal. lia.
Qed.

(** [Utf8::Decode] on a sequence of two bytes, [110qqqqq 10rrrrrr]. *)
Lemma Decode_two :
  forall (utf8_array : buffer) (array_len q r : Z),
    utf8_array 0 = 0xC0 + q ->
    utf8_array 1 = 0x80 + r ->
    0 <= q < 32 -> 0 <= r < 64 ->
    0x80 <= 64 * q + r ->
    2 <= array_len ->
    Utf8.Decode utf8_array array_len =
      {| Utf8.consumed := 2; Utf8.dst := 64 * q + r; Utf8.reads := [0; 1] |}.
Proof.
  intros utf8_array array_len q r H0 H1 Hq Hr Hmin Hlen.
  unfold Utf8.Decode. cbv zeta.
  rewrite H0, (to_uint8_small (0xC0 + q)), land_byte by lia.
  ztrue (0x80 <=? 0xC0 + q).
  pose proof (lead2_table q Hq) as Ht. apply Z.eqb_eq in Ht. rewrite Ht.
  change (Z.to_nat (2 - 1)) with 1%nat.
  rewrite (Decode_loop_step 0 utf8_array array_len 1 (0xC0 + q) r false [0])
    by (assumption || lia).
  cbn [Utf8.Decode_loop app].
  change (Utf8.at_index Utf8.kMagicBits 2) with 0x3080.
  replace (64 * (0xC0 + q) + 0x80 + r - 0x3080) with (64 * q + r) by lia.
  rewrite to_uint32_small by lia.
  change (1 + 1) with 2.
  rewrite IsOutOfRange_inside by lia.
  unfold Utf8.IsNonShortestForm.
  change (Utf8.at_index Utf8.kOverlongMinimum 2) with 0x80.
  zfalse (64 * q + r <? 0x80).
  cbn [negb andb Z.eqb Pos.eqb].
  rewrite to_int32_small by lia. reflexivity.
Qed.

(** [Utf8::Decode] on a sequence of three bytes,
    [1110qqqq 10ssssss 10rrrrrr]. *)
Lemma Decode_three :
  forall (utf8_array : buffer) (array_len q s r : Z),
    utf8_array 0 = 0xE0 + q ->
    utf8_array 1 = 0x80 + s ->
    utf8_array 2 = 0x80 + r ->
    0 <= q < 16 -> 0 <= s < 64 -> 0 <= r < 64 ->
    0x800 <= 4096 * q + 64 * s + r ->
    3 <= array_len ->
    Utf8.Decode utf8_array array_len =
      {| Utf8.consumed := 3; Utf8.dst := 4096 * q + 64 * s + r;
         Utf8.reads := [0; 1; 2] |}.
Proof.
  intros utf8_array array_len q s r H0 H1 H2 Hq Hs Hr Hmin Hlen.
  unfold Utf8.Decode. cbv zeta.
  rewrite H0, (to_uint8_small (0xE0 + q)), land_byte by lia.
  ztrue (0x80 <=? 0xE0 + q).
  pose proof (lead3_table q Hq) as Ht. apply Z.eqb_eq in Ht. rewrite Ht.
  change (Z.to_nat (3 - 1)) with 2%nat.
  rewrite (Decode_loop_step 1 utf8_array array_len 1 (0xE0 + q) s false [0])
    by (assumption || lia).
  change (1 + 1) with 2.
  rewrite (Decode_loop_step 0 utf8_array array_len 2
             (64 * (0xE0 + q) + 0x80 + s) r false ([0] ++ [1]))
    by (assumption || lia).
  cbn [Utf8.Decode_loop app].
  change (Utf8.at_index Utf8.kMagicBits 3) with 0xE2080.
  replace (64 * (64 * (0xE0 + q) + 0x80 + s) + 0x80 + r - 0xE2080)
    with (4096 * q + 64 * s + r) by lia.
  rewrite to_uint32_small by lia.
  change (2 + 1) with 3.
  rewrite IsOutOfRange_inside by lia.
  unfold Utf8.IsNonShortestForm.
  change (Utf8.at_index Utf8.kOverlongMinimum 3) with 0x800.
  zfalse (4096 * q + 64 * s + r <? 0x800).
  cbn [negb andb Z.eqb Pos.eqb].
  rewrite to_int32_small by lia. reflexivity.
Qed.

(** [Utf8::Decode] on a sequence of four bytes,
    [11110qqq 10tttttt 10ssssss 10rrrrrr]. *)
Lemma Decode_four :
  forall (utf8_array : buffer) (array_len q t s r : Z),
    utf8_array 0 = 0xF0 + q ->
    utf8_array 1 = 0x80 + t ->
    utf8_array 2 = 0x80 + s ->
    utf8_array 3 = 0x80 + r ->
    0 <= q < 8 -> 0 <= t < 64 -> 0 <= s < 64 -> 0 <= r < 64 ->
    0x10000 <= 262144 * q + 4096 * t + 64 * s + r <= 0x10FFFF ->
    4 <= array_len ->
    Utf8.Decode utf8_array array_len =
      {| Utf8.consumed := 4; Utf8.dst := 262144 * q + 4096 * t + 64 * s + r;
         Utf8.reads := [0; 1; 2; 3] |}.
Proof.
  intros utf8_array array_len q t s r H0 H1 H2 H3 Hq Ht' Hs Hr Hrange Hlen.
  unfold Utf8.Decode. cbv zeta.
  rewrite H0, (to_uint8_small (0xF0 + q)), land_byte by lia.
  ztrue (0x80 <=? 0xF0 + q).
  pose proof (lead4_table q Hq) as Ht. apply Z.eqb_eq in Ht. rewrite Ht.
  change (Z.to_nat (4 - 1)) with 3%nat.
  rewrite (Decode_loop_step 2 utf8_array array_len 1 (0xF0 + q) t false [0])
    by (assumption || lia).
  change (1 + 1) with 2.
  rewrite (Decode_loop_step 1 utf8_array array_len 2
             (64 * (0xF0 + q) + 0x80 + t) s false ([0] ++ [1]))
    by (assumption || lia).
  change (2 + 1) with 3.
  rewrite (Decode_loop_step 0 utf8_array array_len 3
             (64 * (64 * (0xF0 + q) + 0x80 + t) + 0x80 + s) r false
             (([0] ++ [1]) ++ [2]))
    by (assumption || lia).
  cbn [Utf8.Decode_loop app].
  change (Utf8.at_index Utf8.kMagicBits 4) with 0x03C82080.
  replace (64 * (64 * (64 * (0xF0 + q) + 0x80 + t) + 0x80 + s) + 0x80 + r
           - 0x03C82080)
    with (262144 * q + 4096 * t + 64 * s + r) by lia.
  rewrite to_uint32_small by lia.
  change (3 + 1) with 4.
  rewrite IsOutOfRange_inside by lia.
  unfold Utf8.IsNonShortestForm.
  change (Utf8.at_index Utf8.kOverlongMinimum 4) with 0x10000.
  zfalse (262144 * q + 4096 * t + 64 * s + r <? 0x10000).
  cbn [negb andb Z.eqb Pos.eqb].
  rewrite to_int32_small by lia. reflexivity.
Qed.

Lemma Utf8_Length_by_range :
  forall ch,
    (ch <= 0x7F -> Utf8.Length ch = 1)
    /\ (0x80 <= ch <= 0x7FF -> Utf8.Length ch = 2)
    /\ (0x800 <= ch <= 0xFFFF -> Utf8.Length ch = 3)
    /\ (0x10000 <= ch -> Utf8.Length ch = 4).
Proof.
  intros ch.
  unfold Utf8.Length, Utf8.kMaxOneByteChar, Utf8.kMaxTwoByteChar,
    Utf8.kMaxThreeByteChar.
  destruct (Z.leb_spec ch 0x7F); destruct (Z.leb_spec ch 0x7FF);
    destruct (Z.leb_spec ch 0xFFFF); repeat split; intros; lia.
Qed.

(** C1: for every code point ch in [U+0000, U+10FFFF] outside the surrogate
    range [U+D800, U+DFFF], [Utf8::Encode(ch, dst)] returns
    [Utf8::Length(ch)], and [Utf8::Decode] on the bytes it has stored, with
    array length [Utf8::Length(ch)], succeeds: it yields the original code
    point ch (not the failure value -1) and returns exactly
    [Utf8::Length(ch)] consumed bytes, having read the indices below that
    length and whatever the buffer held before. *)
Theorem Decode_Encode_roundtrip :
  forall (ch : Z) (mem : buffer),
    0 <= ch <= 0x10FFFF ->
    ~ (0xD800 <= ch <= 0xDFFF) ->
    snd (Utf8.Encode ch) = Utf8.Length ch
    /\ Utf8.Decode (store_all mem (fst (Utf8.Encode ch))) (Utf8.Length ch) =
         {| Utf8.consumed := Utf8.Length ch;
            Utf8.dst := ch;
            Utf8.reads := indices 0 (Z.to_nat (Utf8.Length ch)) |}
    /\ Utf8.dst (Utf8.Decode (store_all mem (fst (Utf8.Encode ch)))
                   (Utf8.Length ch)) <> -1.
Proof.
  intros ch mem Hrange _.
  split; [exact (proj2 (Encode_shape ch))|].
  assert (Hdec :
      Utf8.Decode (store_all mem (fst (Utf8.Encode ch))) (Utf8.Length ch) =
        {| Utf8.consumed := Utf8.Length ch; Utf8.dst := ch;
           Utf8.reads := indices 0 (Z.to_nat (Utf8.Length ch)) |}).
  { destruct (Utf8_Length_by_range ch) as (L1 & L2 & L3 & L4).
    destruct (Z.le_gt_cases ch 0x7F) as [H1|H1];
      [|destruct (Z.le_gt_cases ch 0x7FF) as [H2|H2];
        [|destruct (Z.le_gt_cases ch 0xFFFF) as [H3|H3]]].
    - rewrite (L1 H1), (Encode_one ch) by lia.
      unfold Utf8.Decode. cbv zeta.
      change (store_all mem (fst ([(0, ch)], 1)) 0) with ch.
      rewrite to_uint8_small, land_byte by lia.
      zfalse (0x80 <=? ch).
      rewrite to_int32_small by lia. reflexivity.
    - rewrite (L2 ltac:(lia)), (Encode_two ch) by lia.
      rewrite (Decode_two _ 2 (ch / 64) (ch mod 64));
        [ | reflexivity | reflexivity | zdiv | zdiv | zdiv | lia ].
      f_equal. zdiv.
    - rewrite (L3 ltac:(lia)), (Encode_three ch) by lia.
      rewrite (Decode_three _ 3 (ch / 4096) ((ch / 64) mod 64) (ch mod 64));
        [ | reflexivity | reflexivity | reflexivity
          | zdiv | zdiv | zdiv | zdiv | lia ].
      f_equal. zdiv.
    - rewrite (L4 ltac:(lia)), (Encode_four ch) by lia.
      rewrite (Decode_four _ 4 (ch / 262144) ((ch / 4096) mod 64)
                 ((ch / 64) mod 64) (ch mod 64));
        [ | reflexivity | reflexivity | reflexivity | reflexivity
          | zdiv | zdiv | zdiv | zdiv | zdiv | lia ].
      f_equal. zdiv. }
  split; [exact Hdec|].
  rewrite Hdec. cbn [Utf8.dst]. lia.
Qed.

Lemma Decode_Encode_roundtrip_witness :
  0 <= 0x20AC <= 0x10FFFF
  /\ ~ (0xD800 <= 0x20AC <= 0xDFFF)
  /\ Utf8.Decode (store_all (fun _ => 0) (fst (Utf8.Encode 0x20AC))) 3 =
       {| Utf8.consumed := 3; Utf8.dst := 0x20AC; Utf8.reads := [0; 1; 2] |}.
Proof.
  split; [lia|]. split; [lia|].
  exact (proj1 (proj2 (Decode_Encode_roundtrip 0x20AC (fun _ => 0)
                         ltac:(lia) ltac:(lia)))).
Defined.

(* ================================================================== *)
(** * What [Utf8::Decode] accepts *)
(* ================================================================== *)

Lemma IsTrailByte_range :
  forall c, 0 <= c < 256 ->
    (negb (Utf8.IsTrailByte c) || ((0x80 <=? c) && (c <? 0xC0))) = true.
Proof. by_cases_below 256%nat. Qed.

Lemma IsTrailByte_inv :
  forall x, Utf8.IsTrailByte (to_uint8 x) = true ->
    exists r, to_uint8 x = 0x80 + r /\ 0 <= r < 64.
Proof.
  intros x H.
  pose proof (IsTrailByte_range (to_uint8 x) (to_uint8_range x)) as Hr.
  rewrite H in Hr. cbn [negb orb] in Hr.
  apply andb_true_iff in Hr. destruct Hr as [Hlo Hhi].
  apply Z.leb_le in Hlo. apply Z.ltb_lt in Hhi.
  exists (to_uint8 x - 0x80). split; lia.
Qed.

(** The loop over the trailing bytes, when it runs to its end: it has read
    the [k] indices from [i] on, all below [array_len]. *)
Lemma Decode_loop_inv :
  forall (k : nat) (utf8_array : buffer) (array_len i ch : Z)
         (is_malformed : bool) (rd : list Z)
         (i' ch' : Z) (is_malformed' : bool) (rd' : list Z),
    Utf8.Decode_loop k utf8_array array_len i ch is_malformed rd
      = (Some (i', ch', is_malformed'), rd') ->
    i' = i + Z.of_nat k
    /\ rd' = rd ++ indices i k
    /\ (forall j, i <= j < i + Z.of_nat k -> j < array_len)
    /\ ch' = fold_left
               (fun c j => to_uint32 (Z.shiftl c 6 + to_uint8 (utf8_array j)))
               (indices i k) ch
    /\ is_malformed'
       = is_malformed
         || existsb (fun j => negb (Utf8.IsTrailByte (to_uint8 (utf8_array j))))
              (indices i k).
Proof.
  induction k as [|k IH];
    intros utf8_array array_len i ch mal rd i' ch' mal' rd' H.
  - cbn [Utf8.Decode_loop] in H. injection H as <- <- <- <-.
    cbn [indices fold_left existsb]. rewrite app_nil_r, orb_false_r.
    repeat split; lia.
  - cbn [Utf8.Decode_loop] in H.
    destruct (Z.ltb_spec i array_len) as [Hi|Hi]; [|discriminate H].
    apply IH in H. destruct H as (Hi' & Hrd & Hbound & Hch & Hmal).
    cbn [indices fold_left existsb].
    split; [lia|].
    split; [rewrite Hrd, <- app_assoc; reflexivity|].
    split.
    { intros j Hj. destruct (Z.eq_dec j i) as [->|Hne]; [exact Hi|].
      apply Hbound. lia. }
    split; [exact Hch|].
    rewrite Hmal, orb_assoc. reflexivity.
Qed.

(** Whatever the loop answers, it has read indices from 1 on that lie below
    [array_len] only. *)
Lemma Decode_loop_reads :
  forall (k : nat) (utf8_array : buffer) (array_len i ch : Z)
         (is_malformed : bool) (rd : list Z),
    0 < i ->
    Forall (fun j => j = 0 \/ 0 < j < array_len) rd ->
    Forall (fun j => j = 0 \/ 0 < j < array_len)
      (snd (Utf8.Decode_loop k utf8_array array_len i ch is_malformed rd)).
Proof.
  induction k as [|k IH]; intros utf8_array array_len i ch mal rd Hi Hrd.
  - exact Hrd.
  - cbn [Utf8.Decode_loop].
    destruct (Z.ltb_spec i array_len) as [Hlt|Hge]; [|exact Hrd].
    apply IH; [lia|].
    apply Forall_app. split; [exact Hrd|].
    constructor; [right; lia | constructor].
Qed.

(** The last test of [Utf8::Decode], when it lets the sequence through. *)
Lemma Decode_final_test :
  forall (is_malformed : bool) (i n v : Z),
    negb (negb is_malformed
          && (i =? n)
          && negb (Utf.IsOutOfRange v)
          && negb (Utf8.IsNonShortestForm v i)) = false ->
    is_malformed = false /\ i = n /\ 0 <= v <= 0x10FFFF
    /\ Utf8.at_index Utf8.kOverlongMinimum i <= v.
Proof.
  intros mal i n v H.
  apply negb_false_iff in H.
  repeat (apply andb_true_iff in H; destruct H as [H ?]).
  repeat match goal with
         | Hx : negb _ = true |- _ => apply negb_true_iff in Hx
         end.
  unfold Utf.IsOutOfRange, Utf.kMaxCodePoint in *.
  unfold Utf8.IsNonShortestForm in *.
  match goal with
  | Hx : (_ <? 0) || _ = false |- _ =>
      apply orb_false_elim in Hx; destruct Hx as [Hx1 Hx2];
      apply Z.ltb_ge in Hx1; apply Z.ltb_ge in Hx2
  end.
  match goal with Hx : (i =? n) = true |- _ => apply Z.eqb_eq in Hx end.
  match goal with Hx : (v <? _) = false |- _ => apply Z.ltb_ge in Hx end.
  repeat split; assumption || lia.
Qed.

(** A call of [Utf8::Decode] ends in one of two ways: the failure pair
    (0 returned, -1 stored), or a positive return. *)
Lemma Decode_fails_or_not :
  forall (utf8_array : buffer) (array_len : Z),
    (Utf8.consumed (Utf8.Decode utf8_array array_len) = 0
     /\ Utf8.dst (Utf8.Decode utf8_array array_len) = -1)
    \/ 0 < Utf8.consumed (Utf8.Decode utf8_array array_len).
Proof.
  intros utf8_array array_len. unfold Utf8.Decode. cbv zeta.
  destruct (0x80 <=? Z.land (to_uint8 (utf8_array 0)) 0xFF);
    [|right; cbn; lia].
  destruct (Utf8.Decode_loop _ utf8_array array_len 1 _ false [0])
    as [[[[i ch] mal]|] rd] eqn:Hloop; [|left; split; reflexivity].
  destruct (negb _) eqn:Htest; [left; split; reflexivity|].
  right. cbn [Utf8.consumed].
  apply Decode_loop_inv in Hloop. destruct Hloop as (Hi & _). lia.
Qed.

(** A call of [Utf8::Decode] that does not fail, on a lead byte from 0x80
    on: the loop ran to its end over well-formed trailing bytes, and the
    value left after the subtraction of the magic bits passed the tests of
    range and of shortest form. *)
Lemma Decode_success_unfold :
  forall (utf8_array : buffer) (array_len : Z),
    0x80 <= to_uint8 (utf8_array 0) ->
    0 < Utf8.consumed (Utf8.Decode utf8_array array_len) ->
    exists (ch' : Z) (rd : list Z),
      Utf8.Decode_loop
        (Z.to_nat (Utf8.at_index Utf8.kTrailBytes (to_uint8 (utf8_array 0)) - 1))
        utf8_array array_len 1 (to_uint8 (utf8_array 0)) false [0]
        = (Some (Utf8.at_index Utf8.kTrailBytes (to_uint8 (utf8_array 0)),
                 ch', false), rd)
      /\ 0 <= to_uint32
                (ch' - Utf8.at_index Utf8.kMagicBits
                         (Utf8.at_index Utf8.kTrailBytes (to_uint8 (utf8_array 0))))
           <= 0x10FFFF
      /\ Utf8.at_index Utf8.kOverlongMinimum
           (Utf8.at_index Utf8.kTrailBytes (to_uint8 (utf8_array 0)))
         <= to_uint32
              (ch' - Utf8.at_index Utf8.kMagicBits
                       (Utf8.at_index Utf8.kTrailBytes (to_uint8 (utf8_array 0))))
      /\ Utf8.Decode utf8_array array_len =
           {| Utf8.consumed :=
                Utf8.at_index Utf8.kTrailBytes (to_uint8 (utf8_array 0));
              Utf8.dst :=
                to_uint32
                  (ch' - Utf8.at_index Utf8.kMagicBits
                           (Utf8.at_index Utf8.kTrailBytes (to_uint8 (utf8_array 0))));
              Utf8.reads := rd |}.
Proof.
  intros utf8_array array_len Hlead.
  pose proof (to_uint8_range (utf8_array 0)) as Hb.
  unfold Utf8.Decode. cbv zeta.
  rewrite (land_byte _ Hb).
  set (b0 := to_uint8 (utf8_array 0)) in *.
  set (n := Utf8.at_index Utf8.kTrailBytes b0).
  ztrue (0x80 <=? b0).
  destruct (Utf8.Decode_loop (Z.to_nat (n - 1)) utf8_array array_len 1 b0
              false [0]) as [[[[i ch] mal]|] rd] eqn:Hloop;
    [|cbn; lia].
  destruct (negb _) eqn:Htest; [cbn; lia|].
  intros _.
  apply Decode_final_test in Htest.
  destruct Htest as (-> & -> & Hrange & Hmin).
  exists ch, rd.
  split; [reflexivity|]. split; [exact Hrange|]. split; [exact Hmin|].
  rewrite to_int32_small by lia. reflexivity.
Qed.

(** [Utf8::Decode] on a lead byte below 0x80, whatever [array_len] is. *)
Lemma Decode_one :
  forall (utf8_array : buffer) (array_len : Z),
    to_uint8 (utf8_array 0) <= 0x7F ->
    Utf8.Decode utf8_array array_len =
      {| Utf8.consumed := 1; Utf8.dst := to_uint8 (utf8_array 0);
         Utf8.reads := [0] |}.
Proof.
  intros utf8_array array_len H.
  pose proof (to_uint8_range (utf8_array 0)) as Hb.
  unfold Utf8.Decode. cbv zeta. rewrite (land_byte _ Hb).
  zfalse (0x80 <=? to_uint8 (utf8_array 0)).
  rewrite to_int32_small by lia. reflexivity.
Qed.

(** Splits on the well-formedness of the trailing bytes recorded in the
    flag of the loop, and names their low six bits. *)
Ltac trail_bytes H :=
  cbn [indices existsb] in H;
  repeat match type of H with
         | context [Utf8.IsTrailByte (to_uint8 ?x)] =>
             let E := fresh "Etrail" in
             destruct (Utf8.IsTrailByte (to_uint8 x)) eqn:E;
             [ apply IsTrailByte_inv in E; destruct E as (? & E & ?)
             | cbn in H; discriminate H ]
         end.

(** The sequences that [Utf8::Decode] does not reject: one byte below
    0x80, or a lead byte of the form [110qqqqq], [1110qqqq] or [11110qqq]
    followed by one, two or three bytes of the form [10rrrrrr], all below
    [array_len], whose payload bits make a value that needs this many
    bytes and is at most U+10FFFF. *)
Lemma Decode_accepts :
  forall (utf8_array : buffer) (array_len : Z),
    0 < Utf8.consumed (Utf8.Decode utf8_array array_len) ->
    (to_uint8 (utf8_array 0) <= 0x7F
     /\ Utf8.Decode utf8_array array_len =
          {| Utf8.consumed := 1; Utf8.dst := to_uint8 (utf8_array 0);
             Utf8.reads := [0] |})
    \/ (exists q r,
          to_uint8 (utf8_array 0) = 0xC0 + q
          /\ to_uint8 (utf8_array 1) = 0x80 + r
          /\ 0 <= q < 32 /\ 0 <= r < 64
          /\ 0x80 <= 64 * q + r
          /\ 2 <= array_len
          /\ Utf8.Decode utf8_array array_len =
               {| Utf8.consumed := 2; Utf8.dst := 64 * q + r;
                  Utf8.reads := [0; 1] |})
    \/ (exists q s r,
          to_uint8 (utf8_array 0) = 0xE0 + q
          /\ to_uint8 (utf8_array 1) = 0x80 + s
          /\ to_uint8 (utf8_array 2) = 0x80 + r
          /\ 0 <= q < 16 /\ 0 <= s < 64 /\ 0 <= r < 64
          /\ 0x800 <= 4096 * q + 64 * s + r
          /\ 3 <= array_len
          /\ Utf8.Decode utf8_array array_len =
               {| Utf8.consumed := 3; Utf8.dst := 4096 * q + 64 * s + r;
                  Utf8.reads := [0; 1; 2] |})
    \/ (exists q t s r,
          to_uint8 (utf8_array 0) = 0xF0 + q
          /\ to_uint8 (utf8_array 1) = 0x80 + t
          /\ to_uint8 (utf8_array 2) = 0x80 + s
          /\ to_uint8 (utf8_array 3) = 0x80 + r
          /\ 0 <= q < 8 /\ 0 <= t < 64 /\ 0 <= s < 64 /\ 0 <= r < 64
          /\ 0x10000 <= 262144 * q + 4096 * t + 64 * s + r <= 0x10FFFF
          /\ 4 <= array_len
          /\ Utf8.Decode utf8_array array_len =
               {| Utf8.consumed := 4;
                  Utf8.dst := 262144 * q + 4096 * t + 64 * s + r;
                  Utf8.reads := [0; 1; 2; 3] |}).
Proof.
  intros utf8_array array_len Hpos.
  destruct (Z.le_gt_cases (to_uint8 (utf8_array 0)) 0x7F) as [Hascii|Hlead].
  { left. split; [exact Hascii | apply Decode_one; exact Hascii]. }
  right.
  destruct (Decode_success_unfold utf8_array array_len ltac:(lia) Hpos)
    as (ch' & rd & Hloop & Hrange & Hmin & Hdec).
  pose proof (to_uint8_range (utf8_array 0)) as Hb.
  pose proof (kTrailBytes_shape _ Hb) as Hn. apply Z.eqb_eq in Hn.
  set (b0 := to_uint8 (utf8_array 0)) in *.
  apply Decode_loop_inv in Hloop.
  destruct Hloop as (Hi & Hrd & Hbound & Hch & Hmal).
  destruct (Z.ltb_spec b0 0x80); [lia|].
  destruct (Z.ltb_spec b0 0xC0).
  { rewrite Hn in Hi. cbn in Hi. discriminate Hi. }
  destruct (Z.ltb_spec b0 0xE0).
  { left. rewrite Hn in *. clear Hn.
    change (Z.to_nat (2 - 1)) with 1%nat in *.
    trail_bytes Hmal.
    cbn [indices fold_left] in Hch. subst rd.
    match goal with E : to_uint8 (utf8_array 1) = 0x80 + ?r |- _ =>
      rewrite E in Hch; rename r into r0 end.
    rewrite Z.shiftl_mul_pow2 in Hch by lia. change (2 ^ 6) with 64 in Hch.
    rewrite to_uint32_small in Hch by lia. subst ch'.
    change (Utf8.at_index Utf8.kMagicBits 2) with 0x3080 in *.
    change (Utf8.at_index Utf8.kOverlongMinimum 2) with 0x80 in *.
    replace (b0 * 64 + (0x80 + r0) - 0x3080) with (64 * (b0 - 0xC0) + r0)
      in * by lia.
    rewrite to_uint32_small in * by lia.
    assert (1 < array_len) by (apply Hbound; lia).
    exists (b0 - 0xC0), r0.
    split; [lia|]. split; [assumption|].
    split; [lia|]. split; [lia|]. split; [lia|]. split; [lia|].
    exact Hdec. }
  destruct (Z.ltb_spec b0 0xF0).
  { right. left. rewrite Hn in *. clear Hn.
    change (Z.to_nat (3 - 1)) with 2%nat in *.
    trail_bytes Hmal.
    cbn [indices fold_left] in Hch. subst rd.
    change (1 + 1) with 2 in *.
    match goal with
    | E1 : to_uint8 (utf8_array 1) = 0x80 + ?s,
      E2 : to_uint8 (utf8_array 2) = 0x80 + ?r |- _ =>
        rewrite E1, E2 in Hch; rename s into s0; rename r into r0
    end.
    rewrite !Z.shiftl_mul_pow2 in Hch by lia. change (2 ^ 6) with 64 in Hch.
    rewrite (to_uint32_small (b0 * 64 + (0x80 + s0))) in Hch by lia.
    rewrite to_uint32_small in Hch by lia. subst ch'.
    change (Utf8.at_index Utf8.kMagicBits 3) with 0xE2080 in *.
    change (Utf8.at_index Utf8.kOverlongMinimum 3) with 0x800 in *.
    replace ((b0 * 64 + (0x80 + s0)) * 64 + (0x80 + r0) - 0xE2080)
      with (4096 * (b0 - 0xE0) + 64 * s0 + r0) in * by lia.
    rewrite to_uint32_small in * by lia.
    assert (2 < array_len) by (apply Hbound; lia).
    exists (b0 - 0xE0), s0, r0.
    split; [lia|]. split; [assumption|]. split; [assumption|].
    split; [lia|]. split; [lia|]. split; [lia|]. split; [lia|].
    split; [lia|].
    exact Hdec. }
  destruct (Z.ltb_spec b0 0xF8).
  { right. right. rewrite Hn in *. clear Hn.
    change (Z.to_nat (4 - 1)) with 3%nat in *.
    trail_bytes Hmal.
    cbn [indices fold_left] in Hch. subst rd.
    change (1 + 1) with 2 in *. change (2 + 1) with 3 in *.
    match goal with
    | E1 : to_uint8 (utf8_array 1) = 0x80 + ?t,
      E2 : to_uint8 (utf8_array 2) = 0x80 + ?s,
      E3 : to_uint8 (utf8_array 3) = 0x80 + ?r |- _ =>
        rewrite E1, E2, E3 in Hch;
        rename t into t0; rename s into s0; rename r into r0
    end.
    rewrite !Z.shiftl_mul_pow2 in Hch by lia. change (2 ^ 6) with 64 in Hch.
    rewrite (to_uint32_small (b0 * 64 + (0x80 + t0))) in Hch by lia.
    rewrite (to_uint32_small ((b0 * 64 + (0x80 + t0)) * 64 + (0x80 + s0)))
      in Hch by lia.
    rewrite to_uint32_small in Hch by lia. subst ch'.
    change (Utf8.at_index Utf8.kMagicBits 4) with 0x03C82080 in *.
    change (Utf8.at_index Utf8.kOverlongMinimum 4) with 0x10000 in *.
    replace (((b0 * 64 + (0x80 + t0)) * 64 + (0x80 + s0)) * 64 + (0x80 + r0)
             - 0x03C82080)
      with (262144 * (b0 - 0xF0) + 4096 * t0 + 64 * s0 + r0) in * by lia.
    rewrite to_uint32_small in * by lia.
    assert (3 < array_len) by (apply Hbound; lia).
    exists (b0 - 0xF0), t0, s0, r0.
    split; [lia|]. split; [assumption|]. split; [assumption|].
    split; [assumption|].
    split; [lia|]. split; [lia|]. split; [lia|]. split; [lia|].
    split; [lia|]. split; [lia|].
    exact Hdec. }
  destruct (Z.ltb_spec b0 0xFC).
  { rewrite Hn in Hmin, Hrange.
    change (Utf8.at_index Utf8.kOverlongMinimum 5) with 0xFFFFFFFF in Hmin.
    lia. }
  destruct (Z.ltb_spec b0 0xFE).
  { rewrite Hn in Hmin, Hrange.
    change (Utf8.at_index Utf8.kOverlongMinimum 6) with 0xFFFFFFFF in Hmin.
    lia. }
  rewrite Hn in Hi. cbn in Hi. discriminate Hi.
Qed.

(** X1: a call of [Utf8::Decode] either fails with the pair (0 returned,
    -1 stored), or returns a length between 1 and 4 together with a code
    point between U+0000 and U+10FFFF whose [Utf8::Length] is the returned
    length (the sequence was in shortest form); it has then read exactly
    the indices below the returned length, and that length is at most
    [array_len] unless it is 1. *)
Theorem Decode_result_sound :
  forall (utf8_array : buffer) (array_len : Z),
    (Utf8.consumed (Utf8.Decode utf8_array array_len) = 0
     /\ Utf8.dst (Utf8.Decode utf8_array array_len) = -1)
    \/ (1 <= Utf8.consumed (Utf8.Decode utf8_array array_len) <= 4
        /\ 0 <= Utf8.dst (Utf8.Decode utf8_array array_len) <= 0x10FFFF
        /\ Utf8.consumed (Utf8.Decode utf8_array array_len)
           = Utf8.Length (Utf8.dst (Utf8.Decode utf8_array array_len))
        /\ Utf8.reads (Utf8.Decode utf8_array array_len)
           = indices 0 (Z.to_nat (Utf8.consumed (Utf8.Decode utf8_array array_len)))
        /\ (Utf8.consumed (Utf8.Decode utf8_array array_len) = 1
            \/ Utf8.consumed (Utf8.Decode utf8_array array_len) <= array_len)).
Proof.
  intros utf8_array array_len.
  destruct (Decode_fails_or_not utf8_array array_len) as [Hfail|Hpos];
    [left; exact Hfail|].
  right.
  pose proof (to_uint8_range (utf8_array 0)) as Hb.
  destruct (Decode_accepts utf8_array array_len Hpos)
    as [(Hascii & ->)
       |[(q & r & _ & _ & Hq & Hr & Hmin & Hlen & ->)
        |[(q & s & r & _ & _ & _ & Hq & Hs & Hr & Hmin & Hlen & ->)
         |(q & t & s & r & _ & _ & _ & _ & Hq & Ht & Hs & Hr & Hv & Hlen & ->)]]];
    cbn [Utf8.consumed Utf8.dst Utf8.reads].
  - rewrite (proj1 (Utf8_Length_by_range _)) by lia.
    repeat split; lia.
  - rewrite (proj1 (proj2 (Utf8_Length_by_range _))) by lia.
    repeat split; lia.
  - rewrite (proj1 (proj2 (proj2 (Utf8_Length_by_range _)))) by lia.
    repeat split; lia.
  - rewrite (proj2 (proj2 (proj2 (Utf8_Length_by_range _)))) by lia.
    repeat split; lia.
Qed.

(** X2: when [Utf8::Decode] does not fail, [Utf8::Encode] on the code point
    it stored returns the length that [Decode] returned and stores, at the
    same indices, the very bytes that [Decode] read: every accepted
    sequence is the one encoding of its code point. *)
Theorem Decode_then_Encode :
  forall (utf8_array : buffer) (array_len : Z),
    0 < Utf8.consumed (Utf8.Decode utf8_array array_len) ->
    Utf8.Encode (Utf8.dst (Utf8.Decode utf8_array array_len))
    = (map (fun i => (i, to_uint8 (utf8_array i)))
           (Utf8.reads (Utf8.Decode utf8_array array_len)),
       Utf8.consumed (Utf8.Decode utf8_array array_len)).
Proof.
  intros utf8_array array_len Hpos.
  pose proof (to_uint8_range (utf8_array 0)) as Hb.
  destruct (Decode_accepts utf8_array array_len Hpos)
    as [(Hascii & ->)
       |[(q & r & E0 & E1 & Hq & Hr & Hmin & _ & ->)
        |[(q & s & r & E0 & E1 & E2 & Hq & Hs & Hr & Hmin & _ & ->)
         |(q & t & s & r & E0 & E1 & E2 & E3 & Hq & Ht & Hs & Hr & Hv & _ & ->)]]];
    cbn [Utf8.consumed Utf8.dst Utf8.reads map].
  - rewrite Encode_one by lia. reflexivity.
  - rewrite Encode_two by lia. rewrite E0, E1.
    replace ((64 * q + r) / 64) with q by zdiv.
    replace ((64 * q + r) mod 64) with r by zdiv.
    reflexivity.
  - rewrite Encode_three by lia. rewrite E0, E1, E2.
    replace ((4096 * q + 64 * s + r) / 4096) with q by zdiv.
    replace (((4096 * q + 64 * s + r) / 64) mod 64) with s by zdiv.
    replace ((4096 * q + 64 * s + r) mod 64) with r by zdiv.
    reflexivity.
  - rewrite Encode_four by lia. rewrite E0, E1, E2, E3.
    replace ((262144 * q + 4096 * t + 64 * s + r) / 262144) with q by zdiv.
    replace (((262144 * q + 4096 * t + 64 * s + r) / 4096) mod 64)
      with t by zdiv.
    replace (((262144 * q + 4096 * t + 64 * s + r) / 64) mod 64)
      with s by zdiv.
    replace ((262144 * q + 4096 * t + 64 * s + r) mod 64) with r by zdiv.
    reflexivity.
Qed.

Lemma Decode_then_Encode_witness :
  0 < Utf8.consumed (Utf8.Decode (of_list [0xE2; 0x82; 0xAC]) 3)
  /\ Utf8.Encode 0x20AC = ([(0, 0xE2); (1, 0x82); (2, 0xAC)], 3).
Proof.
  split; [reflexivity|].
  exact (Decode_then_Encode (of_list [0xE2; 0x82; 0xAC]) 3 eq_refl).
Defined.

(** X3: whatever the bytes and whatever [array_len], [Utf8::Decode] reads
    index 0 and, beyond it, only indices below [array_len]. *)
Theorem Decode_reads_in_bounds :
  forall (utf8_array : buffer) (array_len : Z),
    Forall (fun j => j = 0 \/ 0 < j < array_len)
      (Utf8.reads (Utf8.Decode utf8_array array_len)).
Proof.
  intros utf8_array array_len.
  assert (H0 : Forall (fun j => j = 0 \/ 0 < j < array_len) [0]).
  { constructor; [left; reflexivity | constructor]. }
  unfold Utf8.Decode. cbv zeta.
  destruct (0x80 <=? Z.land (to_uint8 (utf8_array 0)) 0xFF); [|exact H0].
  match goal with
  | |- context [Utf8.Decode_loop ?k ?a ?l ?i ?c ?m ?rd] =>
      pose proof (Decode_loop_reads k a l i c m rd ltac:(lia) H0) as Hrd;
      destruct (Utf8.Decode_loop k a l i c m rd) as [[[[i' ch'] mal']|] rd']
  end; cbn [snd] in Hrd.
  - destruct (negb _); exact Hrd.
  - exact Hrd.
Qed.

(** X4: on a first byte below 0x80 [Utf8::Decode] returns 1 and stores the
    byte as the code point, for every [array_len]: the length is not
    consulted for the first byte, so this is also what happens when
    [array_len] is zero or negative. *)
Theorem Decode_ascii_any_length :
  forall (utf8_array : buffer) (array_len : Z),
    to_uint8 (utf8_array 0) <= 0x7F ->
    Utf8.Decode utf8_array array_len =
      {| Utf8.consumed := 1; Utf8.dst := to_uint8 (utf8_array 0);
         Utf8.reads := [0] |}
    /\ 0 <= Utf8.dst (Utf8.Decode utf8_array array_len) <= 0x7F.
Proof.
  intros utf8_array array_len H.
  pose proof (to_uint8_range (utf8_array 0)) as Hb.
  rewrite (Decode_one utf8_array array_len H). cbn [Utf8.dst].
  split; [reflexivity | lia].
Qed.

Lemma Decode_ascii_any_length_witness :
  to_uint8 (of_list [0x41] 0) <= 0x7F
  /\ Utf8.Decode (of_list [0x41]) 0 =
       {| Utf8.consumed := 1; Utf8.dst := 0x41; Utf8.reads := [0] |}.
Proof.
  split; [cbv; discriminate|].
  exact (proj1 (Decode_ascii_any_length (of_list [0x41]) 0
                  ltac:(cbv; discriminate))).
Defined.

(** X5: [Utf8::Decode] does not reject surrogates: for every code point ch
    in [U+D800, U+DFFF], decoding the three bytes stored by
    [Utf8::Encode(ch, dst)] returns 3 and yields ch. *)
Theorem Decode_Encode_surrogate :
  forall (ch : Z) (mem : buffer),
    0xD800 <= ch <= 0xDFFF ->
    Utf8.Encode ch =
      ([(0, 0xED); (1, 0x80 + (ch / 64) mod 64); (2, 0x80 + ch mod 64)], 3)
    /\ Utf8.Decode (store_all mem (fst (Utf8.Encode ch))) 3 =
         {| Utf8.consumed := 3; Utf8.dst := ch; Utf8.reads := [0; 1; 2] |}.
Proof.
  intros ch mem Hch.
  rewrite (Encode_three ch) by lia.
  replace (0xE0 + ch / 4096) with 0xED by zdiv.
  split; [reflexivity|].
  rewrite (Decode_three _ 3 13 ((ch / 64) mod 64) (ch mod 64));
    [ | reflexivity | reflexivity | reflexivity
      | lia | zdiv | zdiv | zdiv | lia ].
  f_equal. zdiv.
Qed.

Lemma Decode_Encode_surrogate_witness :
  0xD800 <= 0xD83D <= 0xDFFF
  /\ Utf8.Decode (of_list [0xED; 0xA0; 0xBD]) 3 =
       {| Utf8.consumed := 3; Utf8.dst := 0xD83D; Utf8.reads := [0; 1; 2] |}.
Proof.
  split; [lia|].
  pose proof (proj2 (Decode_Encode_surrogate 0xD83D (of_list [])
                       ltac:(lia))) as H.
  exact H.
Defined.

(** X6: a sequence cut short is rejected: when the first byte is 0x80 or
    above and [array_len] is smaller than the entry of that byte in
    [kTrailBytes], [Utf8::Decode] returns 0 and stores -1. *)
Theorem Decode_truncated :
  forall (utf8_array : buffer) (array_len : Z),
    0x80 <= to_uint8 (utf8_array 0) ->
    array_len < Utf8.at_index Utf8.kTrailBytes (to_uint8 (utf8_array 0)) ->
    Utf8.consumed (Utf8.Decode utf8_array array_len) = 0
    /\ Utf8.dst (Utf8.Decode utf8_array array_len) = -1.
Proof.
  intros utf8_array array_len Hlead Hshort.
  destruct (Decode_fails_or_not utf8_array array_len) as [Hfail|Hpos];
    [exact Hfail|].
  exfalso.
  destruct (Decode_accepts utf8_array array_len Hpos)
    as [(Hascii & _)
       |[(q & r & E0 & _ & Hq & _ & _ & Hlen & _)
        |[(q & s & r & E0 & _ & _ & Hq & _ & _ & _ & Hlen & _)
         |(q & t & s & r & E0 & _ & _ & _ & Hq & _ & _ & _ & _ & Hlen & _)]]].
  - lia.
  - pose proof (lead2_table q Hq) as Ht. apply Z.eqb_eq in Ht.
    rewrite E0, Ht in Hshort. lia.
  - pose proof (lead3_table q Hq) as Ht. apply Z.eqb_eq in Ht.
    rewrite E0, Ht in Hshort. lia.
  - pose proof (lead4_table q Hq) as Ht. apply Z.eqb_eq in Ht.
    rewrite E0, Ht in Hshort. lia.
Qed.

Lemma Decode_truncated_witness :
  0x80 <= to_uint8 (of_list [0xF0; 0x9F; 0x98] 0)
  /\ 3 < Utf8.at_index Utf8.kTrailBytes (to_uint8 (of_list [0xF0; 0x9F; 0x98] 0))
  /\ Utf8.consumed (Utf8.Decode (of_list [0xF0; 0x9F; 0x98]) 3) = 0
  /\ Utf8.dst (Utf8.Decode (of_list [0xF0; 0x9F; 0x98]) 3) = -1.
Proof.
  split; [cbv; discriminate|]. split; [reflexivity|].
  exact (Decode_truncated (of_list [0xF0; 0x9F; 0x98]) 3
           ltac:(cbv; discriminate) eq_refl).
Defined.

(** X7: a sequence with a malformed trailing byte is rejected: when the
    first byte is 0x80 or above and some byte at an index from 1 up to the
    entry of the first byte in [kTrailBytes], exclusive, is not of the form
    [10xxxxxx], [Utf8::Decode] returns 0 and stores -1. *)
Theorem Decode_malformed_trail :
  forall (utf8_array : buffer) (array_len j : Z),
    0x80 <= to_uint8 (utf8_array 0) ->
    1 <= j < Utf8.at_index Utf8.kTrailBytes (to_uint8 (utf8_array 0)) ->
    Utf8.IsTrailByte (to_uint8 (utf8_array j)) = false ->
    Utf8.consumed (Utf8.Decode utf8_array array_len) = 0
    /\ Utf8.dst (Utf8.Decode utf8_array array_len) = -1.
Proof.
  intros utf8_array array_len j Hlead Hj Hbad.
  destruct (Decode_fails_or_not utf8_array array_len) as [Hfail|Hpos];
    [exact Hfail|].
  exfalso.
  destruct (Decode_accepts utf8_array array_len Hpos)
    as [(Hascii & _)
       |[(q & r & E0 & E1 & Hq & Hr & _)
        |[(q & s & r & E0 & E1 & E2 & Hq & Hs & Hr & _)
         |(q & t & s & r & E0 & E1 & E2 & E3 & Hq & Ht' & Hs & Hr & _)]]].
  - lia.
  - pose proof (lead2_table q Hq) as Ht. apply Z.eqb_eq in Ht.
    rewrite E0, Ht in Hj.
    assert (j = 1) by lia. subst j.
    rewrite E1, (IsTrailByte_trail r Hr) in Hbad. discriminate Hbad.
  - pose proof (lead3_table q Hq) as Ht. apply Z.eqb_eq in Ht.
    rewrite E0, Ht in Hj.
    assert (Hcase : j = 1 \/ j = 2) by lia.
    destruct Hcase; subst j.
    + rewrite E1, (IsTrailByte_trail s Hs) in Hbad. discriminate Hbad.
    + rewrite E2, (IsTrailByte_trail r Hr) in Hbad. discriminate Hbad.
  - pose proof (lead4_table q Hq) as Ht. apply Z.eqb_eq in Ht.
    rewrite E0, Ht in Hj.
    assert (Hcase : j = 1 \/ j = 2 \/ j = 3) by lia.
    destruct Hcase as [?|[?|?]]; subst j.
    + rewrite E1, (IsTrailByte_trail t Ht') in Hbad. discriminate Hbad.
    + rewrite E2, (IsTrailByte_trail s Hs) in Hbad. discriminate Hbad.
    + rewrite E3, (IsTrailByte_trail r Hr) in Hbad. discriminate Hbad.
Qed.

Lemma Decode_malformed_trail_witness :
  0x80 <= to_uint8 (of_list [0xE2; 0x82; 0x41] 0)
  /\ 1 <= 2 < Utf8.at_index Utf8.kTrailBytes (to_uint8 (of_list [0xE2; 0x82; 0x41] 0))
  /\ Utf8.IsTrailByte (to_uint8 (of_list [0xE2; 0x82; 0x41] 2)) = false
  /\ Utf8.consumed (Utf8.Decode (of_list [0xE2; 0x82; 0x41]) 3) = 0
  /\ Utf8.dst (Utf8.Decode (of_list [0xE2; 0x82; 0x41]) 3) = -1.
Proof.
  assert (H0 : 0x80 <= to_uint8 (of_list [0xE2; 0x82; 0x41] 0))
    by (cbv; discriminate).
  assert (Hj : 1 <= 2 < Utf8.at_index Utf8.kTrailBytes
                          (to_uint8 (of_list [0xE2; 0x82; 0x41] 0)))
    by (split; [cbv; discriminate | reflexivity]).
  split; [exact H0|]. split; [exact Hj|]. split; [reflexivity|].
  exact (Decode_malformed_trail (of_list [0xE2; 0x82; 0x41]) 3 2
           H0 Hj eq_refl).
Defined.

(** X8: the first bytes that cannot start a sequence are always rejected:
    when the first byte lies in 0x80-0xC1 (a stray trailing byte, or the
    lead of an overlong two-byte form) or in 0xF5-0xFF (the lead of a value
    that would exceed U+10FFFF, or of a sequence of five or six bytes),
    [Utf8::Decode] returns 0 and stores -1, whatever follows. *)
Theorem Decode_rejects_invalid_lead :
  forall (utf8_array : buffer) (array_len : Z),
    0x80 <= to_uint8 (utf8_array 0) < 0xC2
    \/ 0xF5 <= to_uint8 (utf8_array 0) ->
    Utf8.consumed (Utf8.Decode utf8_array array_len) = 0
    /\ Utf8.dst (Utf8.Decode utf8_array array_len) = -1.
Proof.
  intros utf8_array array_len Hlead.
  destruct (Decode_fails_or_not utf8_array array_len) as [Hfail|Hpos];
    [exact Hfail|].
  exfalso.
  destruct (Decode_accepts utf8_array array_len Hpos)
    as [(Hascii & _)
       |[(q & r & E0 & _ & Hq & Hr & Hmin & _)
        |[(q & s & r & E0 & _ & _ & Hq & _)
         |(q & t & s & r & E0 & _ & _ & _ & Hq & Ht' & Hs & Hr & Hv & _)]]];
    lia.
Qed.

Lemma Decode_rejects_invalid_lead_witness :
  (0x80 <= to_uint8 (of_list [0xF5; 0x80; 0x80; 0x80] 0) < 0xC2
   \/ 0xF5 <= to_uint8 (of_list [0xF5; 0x80; 0x80; 0x80] 0))
  /\ Utf8.consumed (Utf8.Decode (of_list [0xF5; 0x80; 0x80; 0x80]) 4) = 0
  /\ Utf8.dst (Utf8.Decode (of_list [0xF5; 0x80; 0x80; 0x80]) 4) = -1.
Proof.
  assert (H : 0x80 <= to_uint8 (of_list [0xF5; 0x80; 0x80; 0x80] 0) < 0xC2
              \/ 0xF5 <= to_uint8 (of_list [0xF5; 0x80; 0x80; 0x80] 0))
    by (right; cbv; discriminate).
  split; [exact H|].
  exact (Decode_rejects_invalid_lead (of_list [0xF5; 0x80; 0x80; 0x80]) 4 H).
Defined.

(* ================================================================== *)
(** * The stores and the answer of [Utf8::DecodeToUTF16] *)
(* ================================================================== *)

Lemma to_uint16_range : forall x, 0 <= to_uint16 x < 2 ^ 16.
Proof. intros x. unfold to_uint16. apply Z.mod_pos_bound. reflexivity. Qed.

Lemma indices_snoc :
  forall (n : nat) (lo : Z),
    indices lo (S n) = indices lo n ++ [lo + Z.of_nat n].
Proof.
  intros n lo. replace (S n) with (n + 1)%nat by lia.
  rewrite indices_app. reflexivity.
Qed.

(** The state in which the loop of [Utf8::DecodeToUTF16] is left, from any
    state in which [j] counts the stores made so far. *)
Lemma DecodeToUTF16_loop_inv :
  forall (fuel : nat) (utf8_array : buffer) (array_len len i j : Z) (w : writes),
    len - j <= Z.of_nat fuel ->
    Z.of_nat (List.length w) = j ->
    map fst w = indices 0 (List.length w) ->
    Forall (fun iv => 0 <= snd iv < 2 ^ 16) w ->
    exists e,
      Utf8.DecodeToUTF16_loop fuel utf8_array array_len len i j w = Ret e
      /\ Z.of_nat (List.length (Utf8.stored e)) = Utf8.exit_j e
      /\ map fst (Utf8.stored e) = indices 0 (List.length (Utf8.stored e))
      /\ Forall (fun iv => 0 <= snd iv < 2 ^ 16) (Utf8.stored e)
      /\ j <= Utf8.exit_j e <= Z.max j (len + 1)
      /\ i <= Utf8.exit_i e
      /\ (Utf8.invalid e = true ->
          Utf8.exit_i e < array_len /\ Utf8.exit_j e < len
          /\ Utf8.dst (Utf8.Decode (offset utf8_array (Utf8.exit_i e))
                         (array_len - Utf8.exit_i e)) = -1)
      /\ (Utf8.invalid e = false ->
          array_len <= Utf8.exit_i e \/ len <= Utf8.exit_j e)
      /\ ((forall k, i <= k < array_len -> to_uint8 (utf8_array k) < 0xF0) ->
          Utf8.exit_j e <= Z.max j len).
Proof.
  induction fuel as [|fuel IH];
    intros utf8_array array_len len i j w Hfuel Hj Hidx Hval.
  - cbn [Utf8.DecodeToUTF16_loop].
    destruct (Z.ltb_spec j len) as [Hlt|Hge]; [lia|].
    rewrite andb_false_r. eexists. split; [reflexivity|].
    cbn [Utf8.stored Utf8.exit_i Utf8.exit_j Utf8.invalid].
    repeat split; try assumption; try lia; try discriminate.
  - cbn [Utf8.DecodeToUTF16_loop].
    destruct (Z.ltb_spec i array_len) as [Hi|Hi];
      destruct (Z.ltb_spec j len) as [Hjl|Hjl]; cbn [andb];
      try (eexists; split; [reflexivity|];
           cbn [Utf8.stored Utf8.exit_i Utf8.exit_j Utf8.invalid];
           repeat split; try assumption; try lia; discriminate).
    set (d := Utf8.Decode (offset utf8_array i) (array_len - i)).
    destruct (Z.eqb_spec (Utf8.dst d) (-1)) as [Hbad|Hgood].
    { eexists. split; [reflexivity|].
      cbn [Utf8.stored Utf8.exit_i Utf8.exit_j Utf8.invalid].
      repeat split; try assumption; try lia; discriminate. }
    assert (Hadv : 0 < Utf8.consumed d).
    { destruct (Decode_fails_or_not (offset utf8_array i) (array_len - i))
        as [[_ Hd]|Hpos]; [contradiction | exact Hpos]. }
    destruct (Utf8.IsSupplementarySequenceStart (to_uint8 (utf8_array i)))
      eqn:Hsup.
    + destruct (IH utf8_array array_len len (i + Utf8.consumed d) (j + 1 + 1)
                  (w ++ shift j (Utf16.Encode (Utf8.dst d))))
        as (e & Hloop & Hlen & Hmap & Hvals & Hje & Hie & Hinv & Hok & Hbmp).
      * lia.
      * rewrite length_app. cbn [shift Utf16.Encode map List.length]. lia.
      * rewrite length_app, map_app, Hidx, indices_app.
        cbn [shift Utf16.Encode map List.length indices fst].
        rewrite Hj. replace (j + 0) with (0 + j) by lia.
        replace (j + 1) with (0 + j + 1) by lia. reflexivity.
      * apply Forall_app. split; [exact Hval|].
        cbn [shift Utf16.Encode map fst snd].
        repeat constructor; cbn [snd]; apply to_uint16_range.
      * exists e. split; [exact Hloop|].
        split; [exact Hlen|]. split; [exact Hmap|]. split; [exact Hvals|].
        split; [lia|]. split; [lia|].
        split; [exact Hinv|]. split; [exact Hok|].
        intros Hno. exfalso.
        specialize (Hno i ltac:(lia)).
        unfold Utf8.IsSupplementarySequenceStart in Hsup.
        apply Z.leb_le in Hsup. lia.
    + destruct (IH utf8_array array_len len (i + Utf8.consumed d) (j + 1)
                  (w ++ [(j, to_uint16 (Utf8.dst d))]))
        as (e & Hloop & Hlen & Hmap & Hvals & Hje & Hie & Hinv & Hok & Hbmp).
      * lia.
      * rewrite length_app. cbn [List.length]. lia.
      * rewrite length_app, map_app, Hidx, indices_app.
        cbn [map List.length indices fst].
        rewrite Hj. reflexivity.
      * apply Forall_app. split; [exact Hval|].
        repeat constructor; cbn [snd]; apply to_uint16_range.
      * exists e. split; [exact Hloop|].
        split; [exact Hlen|]. split; [exact Hmap|]. split; [exact Hvals|].
        split; [lia|]. split; [lia|].
        split; [exact Hinv|]. split; [exact Hok|].
        intros Hno.
        assert (Hrest : forall k, i + Utf8.consumed d <= k < array_len ->
                                  to_uint8 (utf8_array k) < 0xF0).
        { intros k Hk. apply Hno. lia. }
        specialize (Hbmp Hrest). lia.
Qed.

(** X9: for every source and every capacity len >= 0,
    [Utf8::DecodeToUTF16] returns; its stores go to the indices 0, 1, 2,
    ... of the destination in this order, each value is a 16-bit code
    unit, and there are at most len + 1 of them: it never stores beyond
    index len (one past the capacity). *)
Theorem DecodeToUTF16_store_bounds :
  forall (utf8_array : buffer) (array_len len : Z),
    0 <= len ->
    exists (b : bool) (w : writes),
      Utf8.DecodeToUTF16 utf8_array array_len len = Ret (b, w)
      /\ map fst w = indices 0 (List.length w)
      /\ Z.of_nat (List.length w) <= len + 1
      /\ Forall (fun iv => 0 <= snd iv < 2 ^ 16) w.
Proof.
  intros utf8_array array_len len Hlen.
  destruct (DecodeToUTF16_loop_inv (Z.to_nat len) utf8_array array_len len
              0 0 [] ltac:(lia) eq_refl eq_refl (Forall_nil _))
    as (e & Hloop & Hcount & Hmap & Hvals & Hje & _).
  unfold Utf8.DecodeToUTF16. rewrite Hloop. cbn [bind].
  assert (Hb : Z.of_nat (List.length (Utf8.stored e)) <= len + 1) by lia.
  destruct (Utf8.invalid e);
    [|destruct ((Utf8.exit_i e <? array_len) && (Utf8.exit_j e =? len))];
    eexists; eexists; (split; [reflexivity|]);
    (split; [exact Hmap|]); (split; [exact Hb | exact Hvals]).
Qed.

Lemma DecodeToUTF16_store_bounds_witness :
  0 <= 1
  /\ exists (b : bool) (w : writes),
       Utf8.DecodeToUTF16 (of_list [0xF0; 0x9F; 0x98; 0x80; 0x41]) 5 1
         = Ret (b, w)
       /\ Z.of_nat (List.length w) <= 1 + 1.
Proof.
  split; [lia|].
  destruct (DecodeToUTF16_store_bounds
              (of_list [0xF0; 0x9F; 0x98; 0x80; 0x41]) 5 1 ltac:(lia))
    as (b & w & Hr & _ & Hb & _).
  exists b, w. split; [exact Hr | exact Hb].
Defined.

(** X10: on a source none of whose bytes is 0xF0 or above (no sequence of a
    supplementary code point starts in it), and for a capacity len >= 0,
    [Utf8::DecodeToUTF16] stores at most len code units, and it returns
    [true] exactly when the loop ended with the whole source consumed and
    no sequence rejected.  It returns [false] either because
    [Utf8::Decode] rejected the sequence at the position where the loop
    stopped, or because the capacity was used up with source bytes left. *)
Theorem DecodeToUTF16_without_supplementary :
  forall (utf8_array : buffer) (array_len len : Z),
    0 <= len ->
    (forall k, 0 <= k < array_len -> to_uint8 (utf8_array k) < 0xF0) ->
    exists e,
      Utf8.DecodeToUTF16_loop (Z.to_nat len) utf8_array array_len len 0 0 []
        = Ret e
      /\ Utf8.DecodeToUTF16 utf8_array array_len len
         = Ret (negb (Utf8.invalid e) && (array_len <=? Utf8.exit_i e),
                Utf8.stored e)
      /\ Z.of_nat (List.length (Utf8.stored e)) <= len
      /\ (Utf8.invalid e = true ->
          Utf8.exit_i e < array_len
          /\ Utf8.dst (Utf8.Decode (offset utf8_array (Utf8.exit_i e))
                         (array_len - Utf8.exit_i e)) = -1)
      /\ (Utf8.invalid e = false -> Utf8.exit_i e < array_len ->
          Z.of_nat (List.length (Utf8.stored e)) = len).
Proof.
  intros utf8_array array_len len Hlen Hbmp.
  destruct (DecodeToUTF16_loop_inv (Z.to_nat len) utf8_array array_len len
              0 0 [] ltac:(lia) eq_refl eq_refl (Forall_nil _))
    as (e & Hloop & Hcount & _ & _ & Hje & _ & Hinv & Hok & Hcap).
  specialize (Hcap Hbmp).
  exists e. split; [exact Hloop|].
  split.
  { unfold Utf8.DecodeToUTF16. rewrite Hloop. cbn [bind].
    destruct (Utf8.invalid e) eqn:Hi; [reflexivity|].
    cbn [negb andb]. specialize (Hok eq_refl).
    destruct (Z.leb_spec array_len (Utf8.exit_i e)) as [Hall|Hleft].
    - zfalse (Utf8.exit_i e <? array_len). reflexivity.
    - ztrue (Utf8.exit_i e <? array_len).
      ztrue (Utf8.exit_j e =? len). reflexivity. }
  split; [lia|].
  split.
  { intros Hi. destruct (Hinv Hi) as (H1 & _ & H3). split; assumption. }
  intros Hi Hleft. specialize (Hok Hi). lia.
Qed.

Lemma DecodeToUTF16_without_supplementary_witness :
  0 <= 2
  /\ (forall k, 0 <= k < 4 ->
        to_uint8 (of_list [0x41; 0xE2; 0x82; 0xAC] k) < 0xF0)
  /\ Utf8.DecodeToUTF16 (of_list [0x41; 0xE2; 0x82; 0xAC]) 4 2
     = Ret (true, [(0, 0x41); (1, 0x20AC)]).
Proof.
  assert (Hb : forall k, 0 <= k < 4 ->
                 to_uint8 (of_list [0x41; 0xE2; 0x82; 0xAC] k) < 0xF0).
  { intros k Hk.
    assert (Hc : k = 0 \/ k = 1 \/ k = 2 \/ k = 3) by lia.
    destruct Hc as [-> | [-> | [-> | ->]]]; reflexivity. }
  split; [lia|]. split; [exact Hb|].
  destruct (DecodeToUTF16_without_supplementary
              (of_list [0x41; 0xE2; 0x82; 0xAC]) 4 2 ltac:(lia) Hb)
    as (e & Hloop & Hres & _).
  rewrite Hres. revert Hloop. vm_compute. intros Hloop.
  injection Hloop as <-. reflexivity.
Defined.

(** A byte below 0x80 passes through [Utf8::Decode] and the loop of
    [Utf8::DecodeToUTF16] unchanged. *)
Lemma DecodeToUTF16_loop_ascii :
  forall (fuel : nat) (utf8_array : buffer) (array_len len i : Z) (w : writes),
    len - i <= Z.of_nat fuel ->
    0 <= i ->
    (forall k, i <= k < array_len -> to_uint8 (utf8_array k) <= 0x7F) ->
    Utf8.DecodeToUTF16_loop fuel utf8_array array_len len i i w
    = Ret {| Utf8.invalid := false;
             Utf8.exit_i := Z.max i (Z.min array_len len);
             Utf8.exit_j := Z.max i (Z.min array_len len);
             Utf8.stored :=
               w ++ map (fun k => (k, to_uint8 (utf8_array k)))
                      (indices i (Z.to_nat (Z.min array_len len - i))) |}.
Proof.
  induction fuel as [|fuel IH]; intros utf8_array array_len len i w Hf Hi Hascii.
  - cbn [Utf8.DecodeToUTF16_loop].
    zfalse (i <? len). rewrite andb_false_r.
    replace (Z.max i (Z.min array_len len)) with i by lia.
    replace (Z.to_nat (Z.min array_len len - i)) with 0%nat by lia.
    cbn [indices map]. rewrite app_nil_r. reflexivity.
  - cbn [Utf8.DecodeToUTF16_loop].
    destruct (Z.ltb_spec i array_len) as [Hin|Hout];
      destruct (Z.ltb_spec i len) as [Hroom|Hfull]; cbn [andb];
      try (replace (Z.max i (Z.min array_len len)) with i by lia;
           replace (Z.to_nat (Z.min array_len len - i)) with 0%nat by lia;
           cbn [indices map]; rewrite app_nil_r; reflexivity).
    pose proof (Hascii i ltac:(lia)) as Hb.
    pose proof (to_uint8_range (utf8_array i)) as Hr.
    assert (Hd : Utf8.Decode (offset utf8_array i) (array_len - i)
                 = {| Utf8.consumed := 1; Utf8.dst := to_uint8 (utf8_array i);
                      Utf8.reads := [0] |}).
    { rewrite Decode_one; unfold offset; rewrite Z.add_0_r;
        [reflexivity | exact Hb]. }
    rewrite Hd. cbn [Utf8.consumed Utf8.dst].
    zfalse (to_uint8 (utf8_array i) =? -1).
    unfold Utf8.IsSupplementarySequenceStart.
    zfalse (0xF0 <=? to_uint8 (utf8_array i)).
    rewrite (IH utf8_array array_len len (i + 1)) by (try lia; intros; apply Hascii; lia).
    replace (Z.max (i + 1) (Z.min array_len len))
      with (Z.max i (Z.min array_len len)) by lia.
    replace (Z.to_nat (Z.min array_len len - i))
      with (S (Z.to_nat (Z.min array_len len - (i + 1)))) by lia.
    cbn [indices map]. rewrite <- app_assoc. cbn [app].
    unfold to_uint16. rewrite Z.mod_small by lia. reflexivity.
Qed.

(** X11: on a source of array_len bytes that are all below 0x80, and for a
    capacity len >= 0, [Utf8::DecodeToUTF16] stores the first
    min(array_len, len) bytes, each as one code unit at its own index, and
    returns [true] exactly when array_len <= len. *)
Theorem DecodeToUTF16_ascii :
  forall (utf8_array : buffer) (array_len len : Z),
    0 <= len ->
    (forall k, 0 <= k < array_len -> to_uint8 (utf8_array k) <= 0x7F) ->
    Utf8.DecodeToUTF16 utf8_array array_len len
    = Ret (array_len <=? len,
           map (fun k => (k, to_uint8 (utf8_array k)))
               (indices 0 (Z.to_nat (Z.min array_len len)))).
Proof.
  intros utf8_array array_len len Hlen Hascii.
  unfold Utf8.DecodeToUTF16.
  rewrite (DecodeToUTF16_loop_ascii (Z.to_nat len) utf8_array array_len len 0 [])
    by (assumption || lia).
  cbn [bind Utf8.invalid Utf8.exit_i Utf8.exit_j Utf8.stored app].
  rewrite Z.sub_0_r.
  destruct (Z.leb_spec array_len len) as [Hfit|Hover].
  - zfalse (Z.max 0 (Z.min array_len len) <? array_len). reflexivity.
  - ztrue (Z.max 0 (Z.min array_len len) <? array_len).
    ztrue (Z.max 0 (Z.min array_len len) =? len). reflexivity.
Qed.

Lemma DecodeToUTF16_ascii_witness :
  0 <= 2
  /\ (forall k, 0 <= k < 3 -> to_uint8 (of_list [0x44; 0x61; 0x72] k) <= 0x7F)
  /\ Utf8.DecodeToUTF16 (of_list [0x44; 0x61; 0x72]) 3 2
     = Ret (false, [(0, 0x44); (1, 0x61)]).
Proof.
  assert (Hb : forall k, 0 <= k < 3 ->
                 to_uint8 (of_list [0x44; 0x61; 0x72] k) <= 0x7F).
  { intros k Hk.
    assert (Hc : k = 0 \/ k = 1 \/ k = 2) by lia.
    destruct Hc as [-> | [-> | ->]]; cbv; discriminate. }
  split; [lia|]. split; [exact Hb|].
  exact (DecodeToUTF16_ascii (of_list [0x44; 0x61; 0x72]) 3 2 ltac:(lia) Hb).
Defined.

(* ================================================================== *)
(** * The iterator against the merge of surrogate pairs *)
(* ================================================================== *)

Lemma get_code_unit_app :
  forall (pre : list Z) (u : Z) (rest : list Z),
    CodePointIterator.get_code_unit (pre ++ u :: rest)
      (Z.of_nat (List.length pre)) = Ret u.
Proof.
  intros pre u rest. unfold CodePointIterator.get_code_unit.
  zfalse (Z.of_nat (List.length pre) <? 0).
  rewrite Nat2Z.id, nth_error_app2 by lia.
  rewrite Nat.sub_diag. reflexivity.
Qed.

Lemma merge_surrogates_cons2 :
  forall u u2 rest,
    merge_surrogates (u :: u2 :: rest)
    = if Utf16.IsLeadSurrogate u && Utf16.IsTrailSurrogate u2
      then Utf16.Decode u u2 :: merge_surrogates rest
      else u :: merge_surrogates (u2 :: rest).
Proof. reflexivity. Qed.

Lemma Utf16_Decode_supplementary :
  forall lead trail, 0x10000 <= Utf16.Decode lead trail.
Proof.
  intros lead trail. unfold Utf16.Decode.
  pose proof (Z.land_nonneg lead 0x3FF) as H1.
  pose proof (Z.land_nonneg trail 0x3FF) as H2.
  rewrite Z.shiftl_mul_pow2 by lia.
  assert (0 <= Z.land lead 0x3FF) by (apply H1; right; lia).
  assert (0 <= Z.land trail 0x3FF) by (apply H2; right; lia).
  nia.
Qed.

Lemma Utf16_Length_Decode :
  forall lead trail, Utf16.Length (Utf16.Decode lead trail) = 2.
Proof.
  intros lead trail. unfold Utf16.Length, Utf16.kMaxCodeUnit.
  pose proof (Utf16_Decode_supplementary lead trail).
  zfalse (Utf16.Decode lead trail <=? 0xFFFF). reflexivity.
Qed.

Lemma Utf16_Length_unit : forall u, u <= 0xFFFF -> Utf16.Length u = 1.
Proof.
  intros u Hu. unfold Utf16.Length, Utf16.kMaxCodeUnit.
  ztrue (u <=? 0xFFFF). reflexivity.
Qed.

(** The iteration from any state of the iterator: with the units before
    the next unread index in [pre] and the others in [suf], it yields the
    merge of [suf]. *)
Lemma code_points_merge :
  forall (fuel : nat) (pre suf : list Z) (ch idx : Z),
    idx + Utf16.Length ch = Z.of_nat (List.length pre) ->
    -1 <= idx ->
    Forall (fun u => u <= 0xFFFF) suf ->
    (List.length suf < fuel)%nat ->
    CodePointIterator.code_points fuel
      {| CodePointIterator.str_ := pre ++ suf;
         CodePointIterator.ch_ := ch;
         CodePointIterator.index_ := idx;
         CodePointIterator.end_ := CodePointIterator.length (pre ++ suf) |}
    = Ret (merge_surrogates suf).
Proof.
  induction fuel as [|fuel IH]; intros pre suf ch idx Hpos Hidx Hunits Hfuel.
  - lia.
  - cbn [CodePointIterator.code_points].
    unfold CodePointIterator.Next.
    cbn [CodePointIterator.str_ CodePointIterator.ch_
         CodePointIterator.index_ CodePointIterator.end_].
    zfalse (idx <? -1).
    unfold CodePointIterator.length. rewrite length_app.
    destruct suf as [|u rest].
    + cbn [List.length].
      zfalse (idx <? Z.of_nat (List.length pre + 0) - Utf16.Length ch).
      reflexivity.
    + cbn [List.length].
      ztrue (idx <? Z.of_nat (List.length pre + S (List.length rest))
                    - Utf16.Length ch).
      rewrite Hpos, get_code_unit_app. cbn [bind].
      inversion Hunits as [|? ? Hu Hrest]; subst.
      assert (Hstep :
        CodePointIterator.code_points fuel
          {| CodePointIterator.str_ := pre ++ u :: rest;
             CodePointIterator.ch_ := u;
             CodePointIterator.index_ := Z.of_nat (List.length pre);
             CodePointIterator.end_ :=
               Z.of_nat (List.length pre + S (List.length rest)) |}
        = Ret (merge_surrogates rest)).
      { replace (pre ++ u :: rest) with ((pre ++ [u]) ++ rest)
          by (rewrite <- app_assoc; reflexivity).
        replace (Z.of_nat (List.length pre + S (List.length rest)))
          with (CodePointIterator.length ((pre ++ [u]) ++ rest))
          by (unfold CodePointIterator.length;
              rewrite !length_app; cbn [List.length]; lia).
        apply IH.
        - rewrite (Utf16_Length_unit u Hu), length_app. cbn [List.length]. lia.
        - lia.
        - exact Hrest.
        - cbn [List.length] in Hfuel. lia. }
      destruct rest as [|u2 rest2].
      * cbn [List.length].
        zfalse (Z.of_nat (List.length pre) <? Z.of_nat (List.length pre + 1) - 1).
        rewrite andb_false_r.
        cbn [bind fst snd CodePointIterator.Current CodePointIterator.ch_].
        cbn [List.length] in Hstep. rewrite Hstep. reflexivity.
      * cbn [List.length].
        ztrue (Z.of_nat (List.length pre)
               <? Z.of_nat (List.length pre + S (S (List.length rest2))) - 1).
        rewrite andb_true_r, merge_surrogates_cons2.
        destruct (Utf16.IsLeadSurrogate u) eqn:Hlead; cbn [andb].
        -- replace (Z.of_nat (List.length pre) + 1)
             with (Z.of_nat (List.length (pre ++ [u])))
             by (rewrite length_app; cbn [List.length]; lia).
           replace (pre ++ u :: u2 :: rest2) with ((pre ++ [u]) ++ u2 :: rest2)
             at 1 by (rewrite <- app_assoc; reflexivity).
           rewrite get_code_unit_app. cbn [bind].
           destruct (Utf16.IsTrailSurrogate u2) eqn:Htrail.
           ++ cbn [bind fst snd CodePointIterator.Current CodePointIterator.ch_].
              inversion Hrest as [|? ? Hu2 Hrest2]; subst.
              replace (pre ++ u :: u2 :: rest2)
                with ((pre ++ [u; u2]) ++ rest2)
                by (rewrite <- app_assoc; reflexivity).
              replace (Z.of_nat (List.length pre + S (S (List.length rest2))))
                with (CodePointIterator.length ((pre ++ [u; u2]) ++ rest2))
                by (unfold CodePointIterator.length;
                    rewrite !length_app; cbn [List.length]; lia).
              rewrite IH; [reflexivity | | lia | exact Hrest2 | ].
              ** rewrite Utf16_Length_Decode, length_app.
                 cbn [List.length]. lia.
              ** cbn [List.length] in Hfuel. lia.
           ++ cbn [bind fst snd CodePointIterator.Current CodePointIterator.ch_].
              cbn [List.length] in Hstep. rewrite Hstep. reflexivity.
        -- cbn [bind fst snd CodePointIterator.Current CodePointIterator.ch_].
           cbn [List.length] in Hstep. rewrite Hstep. reflexivity.
Qed.

(** X12: over a string of 16-bit code units the iterator returns, and the
    code points it yields are those of the string read from left to right
    with every lead surrogate that is immediately followed by a trail
    surrogate merged with it, and every other code unit, unpaired
    surrogates included, passed through unchanged. *)
Theorem CodePointIterator_merges_pairs :
  forall str : CodePointIterator.TwoByteString,
    Forall (fun u => 0 <= u <= 0xFFFF) str ->
    CodePointIterator.code_points (S (List.length str))
      (CodePointIterator.new str)
    = Ret (merge_surrogates str).
Proof.
  intros str Hunits. unfold CodePointIterator.new.
  apply (code_points_merge (S (List.length str)) [] str 0 (-1)).
  - reflexivity.
  - lia.
  - eapply Forall_impl; [|exact Hunits]. cbn. intros u Hu. lia.
  - lia.
Qed.

Lemma CodePointIterator_merges_pairs_witness :
  Forall (fun u => 0 <= u <= 0xFFFF) [0xDE00; 0xD83D; 0xD83D; 0xDE00; 0x41]
  /\ CodePointIterator.code_points 6
       (CodePointIterator.new [0xDE00; 0xD83D; 0xD83D; 0xDE00; 0x41])
     = Ret [0xDE00; 0xD83D; 0x1F600; 0x41].
Proof.
  assert (H : Forall (fun u => 0 <= u <= 0xFFFF)
                [0xDE00; 0xD83D; 0xD83D; 0xDE00; 0x41])
    by (repeat constructor; cbv; discriminate).
  split; [exact H|].
  exact (CodePointIterator_merges_pairs
           [0xDE00; 0xD83D; 0xD83D; 0xDE00; 0x41] H).
Defined.

(* ================================================================== *)
(** * The length in UTF-8 of a string, and the buffer it fills *)
(* ================================================================== *)

(** The loop of [Utf8::Length(TwoByteString* str)] adds up [Utf8::Length(ch)]
    over the code points of the iterator. *)
Lemma Length_loop_total :
  forall (fuel : nat) (it : CodePointIterator.t) (length : Z) (cps : list Z),
    CodePointIterator.code_points fuel it = Ret cps ->
    Utf8.Length_loop fuel it length = Ret (length + total_length cps).
Proof.
  induction fuel as [|fuel IH]; intros it acc cps Hcps.
  - discriminate Hcps.
  - cbn [CodePointIterator.code_points] in Hcps. cbn [Utf8.Length_loop].
    destruct (CodePointIterator.Next it) as [[b it']| | |];
      cbn [bind fst snd] in Hcps |- *; try discriminate Hcps.
    destruct b.
    + destruct (CodePointIterator.code_points fuel it') as [rest| | |] eqn:Hrest;
        cbn [bind] in Hcps; try discriminate Hcps.
      injection Hcps as <-.
      rewrite (IH it' _ rest Hrest). cbn [total_length].
      f_equal. lia.
    + injection Hcps as <-. cbn [total_length]. f_equal. lia.
Qed.

Lemma encode_at_total :
  forall cps pos, snd (encode_at pos cps) = pos + total_length cps.
Proof.
  induction cps as [|ch rest IH]; intros pos; cbn [encode_at total_length snd].
  - lia.
  - rewrite IH. lia.
Qed.

Lemma total_length_nonneg : forall cps, 0 <= total_length cps.
Proof.
  induction cps as [|ch rest IH]; cbn [total_length]; [lia|].
  pose proof (Utf8_Length_range ch). lia.
Qed.

Lemma total_length_firstn :
  forall (cps : list Z) (k : nat) (ch : Z),
    nth_error cps k = Some ch ->
    total_length (firstn k cps) + Utf8.Length ch <= total_length cps.
Proof.
  induction cps as [|c rest IH]; intros k ch Hk.
  - destruct k; discriminate Hk.
  - destruct k as [|k]; cbn [nth_error firstn total_length] in *.
    + injection Hk as ->. pose proof (total_length_nonneg rest). lia.
    + specialize (IH k ch Hk). lia.
Qed.

Lemma Utf8_Length_merged :
  forall lead trail, Utf8.Length (Utf16.Decode lead trail) = 4.
Proof.
  intros lead trail. pose proof (Utf16_Decode_supplementary lead trail).
  apply (proj2 (proj2 (proj2 (Utf8_Length_by_range _)))). lia.
Qed.

Lemma Utf8_Length_unit : forall u, u <= 0xFFFF -> 1 <= Utf8.Length u <= 3.
Proof.
  intros u Hu.
  destruct (Utf8_Length_by_range u) as (L1 & L2 & L3 & _).
  destruct (Z.le_gt_cases u 0x7F); [rewrite L1 by lia; lia|].
  destruct (Z.le_gt_cases u 0x7FF); [rewrite L2 by lia; lia|].
  rewrite L3 by lia. lia.
Qed.

(** Between one and three bytes per code unit. *)
Lemma total_length_merge_bounds :
  forall units : list Z,
    (Forall (fun u => u <= 0xFFFF) units ->
     Z.of_nat (List.length units) <= total_length (merge_surrogates units)
       <= 3 * Z.of_nat (List.length units))
    /\ (forall u, Forall (fun u => u <= 0xFFFF) (u :: units) ->
        Z.of_nat (List.length (u :: units))
          <= total_length (merge_surrogates (u :: units))
          <= 3 * Z.of_nat (List.length (u :: units))).
Proof.
  induction units as [|u2 rest [IH1 IH2]].
  - split.
    + intros _. cbn. lia.
    + intros u Hu. inversion Hu as [|? ? Hu0 _]; subst.
      cbn [merge_surrogates total_length List.length].
      pose proof (Utf8_Length_unit u Hu0). lia.
  - split; [exact (IH2 u2)|].
    intros u Hu. inversion Hu as [|? ? Hu0 Hrest]; subst.
    rewrite merge_surrogates_cons2.
    destruct (Utf16.IsLeadSurrogate u && Utf16.IsTrailSurrogate u2).
    + inversion Hrest as [|? ? _ Hrest2]; subst.
      specialize (IH1 Hrest2).
      cbn [total_length List.length] in *.
      rewrite Utf8_Length_merged. lia.
    + specialize (IH2 u2 Hrest).
      cbn [total_length] in *. cbn [List.length] in *.
      pose proof (Utf8_Length_unit u Hu0). lia.
Qed.

(** X13: for a string of 16-bit code units, [Utf8::Length(str)] returns the
    sum of [Utf8::Length(ch)] over the code points of the string with its
    surrogate pairs merged, and this sum is at least the number of code
    units of the string and at most three times that number. *)
Theorem Length_str_bounds :
  forall str : CodePointIterator.TwoByteString,
    Forall (fun u => 0 <= u <= 0xFFFF) str ->
    Utf8.Length_str str = Ret (total_length (merge_surrogates str))
    /\ Z.of_nat (List.length str) <= total_length (merge_surrogates str)
       <= 3 * Z.of_nat (List.length str).
Proof.
  intros str Hunits.
  assert (Hu : Forall (fun u => u <= 0xFFFF) str).
  { eapply Forall_impl; [|exact Hunits]. cbn. intros u Hu. lia. }
  split.
  - unfold Utf8.Length_str.
    rewrite (Length_loop_total _ _ 0 (merge_surrogates str)).
    + reflexivity.
    + apply (code_points_merge (S (List.length str)) [] str 0 (-1));
        [reflexivity | lia | exact Hu | lia].
  - exact (proj1 (total_length_merge_bounds str) Hu).
Qed.

Lemma Length_str_bounds_witness :
  Forall (fun u => 0 <= u <= 0xFFFF) [0xD83D; 0xDE00; 0x41; 0x20AC]
  /\ Utf8.Length_str [0xD83D; 0xDE00; 0x41; 0x20AC] = Ret 8.
Proof.
  assert (H : Forall (fun u => 0 <= u <= 0xFFFF)
                [0xD83D; 0xDE00; 0x41; 0x20AC])
    by (repeat constructor; cbv; discriminate).
  split; [exact H|].
  exact (proj1 (Length_str_bounds [0xD83D; 0xDE00; 0x41; 0x20AC] H)).
Defined.

(** X14: a buffer whose capacity len >= 0 is at least [Utf8::Length(src)]
    is filled with the whole string: [Utf8::Encode(src, dst, len)] then
    returns exactly [Utf8::Length(src)], having stored that many bytes, the
    encodings of all the code points of the string.  With a smaller
    capacity it returns less than [Utf8::Length(src)]. *)
Theorem Encode_str_fills_Length_str :
  forall (src : CodePointIterator.TwoByteString) (len total : Z),
    0 <= len ->
    Utf8.Length_str src = Ret total ->
    exists (cps : list Z) (w : writes) (pos : Z),
      CodePointIterator.code_points (S (List.length src))
        (CodePointIterator.new src) = Ret cps
      /\ Utf8.Encode_str src len = Ret (w, pos)
      /\ (total <= len ->
          pos = total /\ w = fst (encode_at 0 cps)
          /\ Z.of_nat (List.length w) = total)
      /\ (len < total -> pos < total).
Proof.
  intros src len total Hlen Htotal.
  destruct (code_points_new_returns src) as [cps Hcps].
  unfold Utf8.Length_str in Htotal.
  rewrite (Length_loop_total _ _ 0 cps Hcps) in Htotal.
  injection Htotal as Htotal.
  assert (Ht : total = total_length cps) by lia. clear Htotal. subst total.
  pose proof (total_length_nonneg cps) as Hnn.
  destruct (Encode_loop_prefix (S (List.length src))
              (CodePointIterator.new src) len 0 [] cps Hcps Hlen)
    as (k & Hloop & Hle & Hstop).
  rewrite encode_at_total in Hle, Hstop.
  destruct (Z.le_gt_cases (total_length cps) len) as [Hfit|Hshort].
  - assert (Hk : firstn k cps = cps).
    { destruct Hstop as [-> | (ch & Hnth & Hover)].
      - apply firstn_all.
      - pose proof (total_length_firstn cps k ch Hnth). lia. }
    rewrite Hk in Hloop.
    exists cps, (fst (encode_at 0 cps)), (snd (encode_at 0 cps)).
    split; [exact Hcps|]. split; [exact Hloop|].
    rewrite encode_at_total.
    split; [|lia].
    intros _. split; [lia|]. split; [reflexivity|].
    destruct (encode_at_layout cps 0) as [_ Hmap].
    rewrite encode_at_total in Hmap.
    rewrite <- (length_map fst), Hmap, indices_length. lia.
  - eexists cps, _, _.
    split; [exact Hcps|]. split; [exact Hloop|].
    rewrite encode_at_total.
    split; [lia|]. intros _. lia.
Qed.

Lemma Encode_str_fills_Length_str_witness :
  0 <= 8
  /\ Utf8.Length_str [0xD83D; 0xDE00; 0x41; 0x20AC] = Ret 8
  /\ Utf8.Encode_str [0xD83D; 0xDE00; 0x41; 0x20AC] 8
     = Ret ([(0, 240); (1, 159); (2, 152); (3, 128);
             (4, 65); (5, 226); (6, 130); (7, 172)], 8).
Proof.
  split; [lia|]. split; [reflexivity|].
  destruct (Encode_str_fills_Length_str [0xD83D; 0xDE00; 0x41; 0x20AC] 8 8
              ltac:(lia) eq_refl) as (cps & w & pos & _ & Henc & _).
  rewrite Henc. revert Henc. vm_compute. intros Henc. exact (eq_sym Henc).
Defined.

(* ================================================================== *)
(** * Surrogate pairs: [Utf16::Encode] against the iterator *)
(* ================================================================== *)

(** The two code units stored by [Utf16::Encode], and their merge. *)
Lemma Utf16_Encode_pair :
  forall cp, 0x10000 <= cp <= 0x10FFFF ->
    Utf16.Encode cp = [(0, 0xD7C0 + cp / 1024); (1, 0xDC00 + cp mod 1024)]
    /\ 0xD800 <= 0xD7C0 + cp / 1024 <= 0xDBFF
    /\ 0xDC00 <= 0xDC00 + cp mod 1024 <= 0xDFFF
    /\ Utf16.Decode (0xD7C0 + cp / 1024) (0xDC00 + cp mod 1024) = cp.
Proof.
  intros cp Hcp.
  assert (Hq : 64 <= cp / 1024 <= 1087) by zdiv.
  assert (Hr : 0 <= cp mod 1024 < 1024) by zdiv.
  split.
  { unfold Utf16.Encode.
    change Utf16.kLeadSurrogateOffset with 0xD7C0.
    rewrite Z.shiftr_div_pow2 by lia. change (2 ^ 10) with 1024.
    change 0x3FF with (Z.ones 10). rewrite Z.land_ones by lia.
    change (2 ^ 10) with 1024.
    unfold to_uint16. rewrite !Z.mod_small by lia. reflexivity. }
  split; [lia|]. split; [lia|].
  unfold Utf16.Decode.
  change 0x3FF with (Z.ones 10). rewrite !Z.land_ones by lia.
  rewrite Z.shiftl_mul_pow2 by lia. change (2 ^ 10) with 1024.
  zdiv.
Qed.

Lemma to_code_units_merge :
  forall cps : list Z,
    Forall (fun cp => 0 <= cp <= 0x10FFFF /\ ~ (0xD800 <= cp <= 0xDFFF)) cps ->
    Forall (fun u => 0 <= u <= 0xFFFF) (to_code_units cps)
    /\ merge_surrogates (to_code_units cps) = cps.
Proof.
  induction cps as [|cp rest IH]; intros Hcps.
  - split; [constructor | reflexivity].
  - inversion Hcps as [|? ? [Hrange Hns] Hrest]; subst.
    destruct (IH Hrest) as [IHu IHm].
    cbn [to_code_units]. unfold Utf16.kMaxCodeUnit.
    destruct (Z.leb_spec cp 0xFFFF) as [Hbmp|Hsup].
    + cbn [app]. split; [constructor; [lia | exact IHu]|].
      destruct (to_code_units rest) as [|u2 units] eqn:Hunits.
      * cbn [merge_surrogates] in *. rewrite <- IHm. reflexivity.
      * rewrite merge_surrogates_cons2.
        assert (Hl : Utf16.IsLeadSurrogate cp = false).
        { unfold Utf16.IsLeadSurrogate.
          destruct (Z.leb_spec 0xD800 cp); destruct (Z.leb_spec cp 0xDBFF);
            cbn [andb]; try reflexivity. exfalso. apply Hns. lia. }
        rewrite Hl. cbn [andb]. rewrite IHm. reflexivity.
    + destruct (Utf16_Encode_pair cp ltac:(lia)) as (He & Hlead & Htrail & Hd).
      rewrite He. cbn [map snd app].
      split; [constructor; [lia | constructor; [lia | exact IHu]]|].
      rewrite merge_surrogates_cons2.
      unfold Utf16.IsLeadSurrogate, Utf16.IsTrailSurrogate.
      ztrue (0xD800 <=? 0xD7C0 + cp / 1024).
      ztrue (0xD7C0 + cp / 1024 <=? 0xDBFF).
      ztrue (0xDC00 <=? 0xDC00 + cp mod 1024).
      ztrue (0xDC00 + cp mod 1024 <=? 0xDFFF).
      cbn [andb]. rewrite Hd, IHm. reflexivity.
Qed.

(** X15: for every sequence of code points between U+0000 and U+10FFFF
    that are not surrogates, written as code units with [Utf16::Encode]
    for those above U+FFFF, the iterator over these code units yields the
    sequence of code points again. *)
Theorem CodePointIterator_Utf16_roundtrip :
  forall cps : list Z,
    Forall (fun cp => 0 <= cp <= 0x10FFFF /\ ~ (0xD800 <= cp <= 0xDFFF)) cps ->
    CodePointIterator.code_points (S (List.length (to_code_units cps)))
      (CodePointIterator.new (to_code_units cps))
    = Ret cps.
Proof.
  intros cps Hcps.
  destruct (to_code_units_merge cps Hcps) as [Hunits Hmerge].
  rewrite <- Hmerge at 3.
  apply (code_points_merge _ [] (to_code_units cps) 0 (-1)).
  - reflexivity.
  - lia.
  - eapply Forall_impl; [|exact Hunits]. cbn. intros u Hu. lia.
  - lia.
Qed.

Lemma CodePointIterator_Utf16_roundtrip_witness :
  Forall (fun cp => 0 <= cp <= 0x10FFFF /\ ~ (0xD800 <= cp <= 0xDFFF))
    [0x41; 0x1F600; 0x20AC]
  /\ to_code_units [0x41; 0x1F600; 0x20AC] = [0x41; 0xD83D; 0xDE00; 0x20AC]
  /\ CodePointIterator.code_points 5
       (CodePointIterator.new [0x41; 0xD83D; 0xDE00; 0x20AC])
     = Ret [0x41; 0x1F600; 0x20AC].
Proof.
  assert (H : Forall (fun cp => 0 <= cp <= 0x10FFFF
                                /\ ~ (0xD800 <= cp <= 0xDFFF))
                [0x41; 0x1F600; 0x20AC])
    by (repeat constructor; lia).
  split; [exact H|]. split; [reflexivity|].
  exact (CodePointIterator_Utf16_roundtrip [0x41; 0x1F600; 0x20AC] H).
Defined.

(* ================================================================== *)
(** * Adjacent frames *)
(* ================================================================== *)

(** X16: the frame returned by [Previous()] lies on the same stack and ends
    where the current frame begins (its frame pointer plus its size is the
    current frame pointer), and its [ByteCodePointer()] is the
    [ReturnAddress()] of the current frame: both read the slot just below
    the current frame pointer. *)
Theorem Previous_adjacent :
  forall f g : Frame.t,
    Frame.Previous f = Ret g ->
    Frame.stack_ g = Frame.stack_ f
    /\ Frame.PreviousFramePointer f = Ret (Frame.frame_pointer_ g)
    /\ Frame.frame_pointer_ g + Frame.size_ g = Frame.frame_pointer_ f
    /\ Frame.ByteCodePointer g = Frame.ReturnAddress f.
Proof.
  intros f g Hprev. unfold Frame.Previous in Hprev.
  destruct (Frame.PreviousFramePointer f) as [p| | |];
    cbn [bind] in Hprev; try discriminate Hprev.
  destruct (Frame.load (Frame.stack_ f) p) as [v| | |];
    cbn [bind] in Hprev; try discriminate Hprev.
  destruct (v =? Frame.NULL); [discriminate Hprev|].
  injection Hprev as <-.
  unfold Frame.ByteCodePointer, Frame.ReturnAddress.
  cbn [Frame.stack_ Frame.frame_pointer_ Frame.size_].
  split; [reflexivity|]. split; [reflexivity|]. split; [lia|].
  f_equal. lia.
Qed.

Lemma Previous_adjacent_witness :
  Frame.Previous (Frame.Frame Frame.two_calls 109 2)
    = Ret (Frame.Frame Frame.two_calls 106 3)
  /\ Frame.ByteCodePointer (Frame.Frame Frame.two_calls 106 3) = Ret 43
  /\ Frame.ReturnAddress (Frame.Frame Frame.two_calls 109 2) = Ret 43.
Proof.
  split; [reflexivity|]. split; [reflexivity|].
  rewrite <- (proj2 (proj2 (proj2
    (Previous_adjacent (Frame.Frame Frame.two_calls 109 2)
       (Frame.Frame Frame.two_calls 106 3) eq_refl)))).
  reflexivity.
Defined.

(** X17: the frame returned by [Frame::FirstFrame] lies on the given stack,
    is anchored at the pointer held by the top slot and ends at the top
    slot (its frame pointer plus its size is the address of the top
    slot), so that its [ByteCodePointer()] reads the slot just below the
    top; [IsFirstFrame()] holds for it exactly when the top slot holds the
    address of the slot two below the top. *)
Theorem FirstFrame_extent :
  forall (stack : Stack.t) (f : Frame.t),
    Frame.FirstFrame stack = Ret f ->
    Frame.stack_ f = stack
    /\ Frame.load stack (Stack.Pointer stack (Stack.top stack))
       = Ret (Frame.frame_pointer_ f)
    /\ Frame.frame_pointer_ f + Frame.size_ f
       = Stack.Pointer stack (Stack.top stack)
    /\ Frame.ByteCodePointer f
       = Frame.load stack (Stack.Pointer stack (Stack.top stack - 1))
    /\ Frame.IsFirstFrame f
       = (Frame.frame_pointer_ f =? Stack.Pointer stack (Stack.top stack - 2)).
Proof.
  intros stack f Hfirst. unfold Frame.FirstFrame in Hfirst.
  destruct (Frame.load stack (Stack.Pointer stack (Stack.top stack)))
    as [p| | |]; cbn [bind] in Hfirst; try discriminate Hfirst.
  injection Hfirst as <-.
  unfold Frame.ByteCodePointer, Frame.IsFirstFrame, Stack.Pointer.
  cbn [Frame.stack_ Frame.frame_pointer_ Frame.size_].
  split; [reflexivity|]. split; [reflexivity|]. split; [lia|].
  split; [f_equal; lia|].
  destruct (Z.eqb_spec (Stack.base stack + Stack.top stack - p) 2);
    destruct (Z.eqb_spec p (Stack.base stack + (Stack.top stack - 2)));
    try reflexivity; lia.
Qed.

Lemma FirstFrame_extent_witness :
  Frame.FirstFrame Frame.two_calls = Ret (Frame.Frame Frame.two_calls 109 2)
  /\ Frame.ByteCodePointer (Frame.Frame Frame.two_calls 109 2) = Ret 7003
  /\ Frame.IsFirstFrame (Frame.Frame Frame.two_calls 109 2) = true.
Proof.
  split; [reflexivity|]. split; [reflexivity|].
  rewrite (proj2 (proj2 (proj2 (proj2
    (FirstFrame_extent Frame.two_calls (Frame.Frame Frame.two_calls 109 2)
       eq_refl))))).
  reflexivity.
Defined.

(* ================================================================== *)
(** * [Utf8::CodeUnitCount] and the capacity [Utf8::DecodeToUTF16] needs *)
(* ================================================================== *)

(** The count does not depend on the type tracked beside it, and the count
    so far is carried along unchanged. *)
Lemma CodeUnitCount_loop_count :
  forall (n : nat) (utf8_array : buffer) (i len : Z) (ty : Utf8.Type_),
    fst (Utf8.CodeUnitCount_loop n utf8_array i len ty)
    = len + count_from utf8_array i n.
Proof.
  unfold count_from.
  induction n as [|n IH]; intros utf8_array i len ty.
  - cbn. lia.
  - cbn [Utf8.CodeUnitCount_loop].
    destruct (negb (Utf8.IsTrailByte (to_uint8 (utf8_array i))));
      [destruct (negb (Utf8.IsLatin1SequenceStart (to_uint8 (utf8_array i))));
       [destruct (Utf8.IsSupplementarySequenceStart (to_uint8 (utf8_array i)))|]|].
    + rewrite (IH utf8_array (i + 1) (len + 1 + 1)),
              (IH utf8_array (i + 1) (0 + 1 + 1)). lia.
    + rewrite (IH utf8_array (i + 1) (len + 1)),
              (IH utf8_array (i + 1) (0 + 1)). lia.
    + rewrite (IH utf8_array (i + 1) (len + 1)),
              (IH utf8_array (i + 1) (0 + 1)). lia.
    + rewrite (IH utf8_array (i + 1) len). lia.
Qed.

(** What one byte adds to the count: nothing for a trailing byte, two for
    the lead byte of a supplementary code point, one for any other. *)
Lemma count_from_step :
  forall (n : nat) (utf8_array : buffer) (i : Z),
    count_from utf8_array i (S n)
    = (if Utf8.IsTrailByte (to_uint8 (utf8_array i)) then 0
       else if Utf8.IsSupplementarySequenceStart (to_uint8 (utf8_array i))
            then 2 else 1)
      + count_from utf8_array (i + 1) n.
Proof.
  intros n utf8_array i. unfold count_from at 1.
  cbn [Utf8.CodeUnitCount_loop].
  destruct (Utf8.IsTrailByte (to_uint8 (utf8_array i))); cbn [negb].
  - rewrite CodeUnitCount_loop_count. lia.
  - unfold Utf8.IsLatin1SequenceStart, Utf8.IsSupplementarySequenceStart.
    destruct (Z.leb_spec (to_uint8 (utf8_array i)) 0xC3);
      destruct (Z.leb_spec 0xF0 (to_uint8 (utf8_array i)));
      cbn [negb]; rewrite CodeUnitCount_loop_count; lia.
Qed.

Lemma count_from_0 :
  forall (utf8_array : buffer) (i : Z), count_from utf8_array i 0 = 0.
Proof. reflexivity. Qed.

Lemma count_from_nonneg :
  forall (n : nat) (utf8_array : buffer) (i : Z), 0 <= count_from utf8_array i n.
Proof.
  induction n as [|n IH]; intros utf8_array i.
  - cbn. lia.
  - rewrite count_from_step. specialize (IH utf8_array (i + 1)).
    destruct (Utf8.IsTrailByte _); [lia|].
    destruct (Utf8.IsSupplementarySequenceStart _); lia.
Qed.

Lemma count_from_app :
  forall (a b : nat) (utf8_array : buffer) (i : Z),
    count_from utf8_array i (a + b)
    = count_from utf8_array i a + count_from utf8_array (i + Z.of_nat a) b.
Proof.
  induction a as [|a IH]; intros b utf8_array i.
  - cbn [Nat.add]. replace (i + Z.of_nat 0) with i by lia.
    unfold count_from at 2. cbn. lia.
  - cbn [Nat.add]. rewrite !count_from_step, IH.
    replace (i + 1 + Z.of_nat a) with (i + Z.of_nat (S a)) by lia. lia.
Qed.

Lemma IsTrailByte_lead :
  forall b, 0 <= b < 0x80 \/ 0xC0 <= b < 256 -> Utf8.IsTrailByte b = false.
Proof.
  intros b Hb.
  pose proof (IsTrailByte_range b ltac:(lia)) as H.
  destruct (Utf8.IsTrailByte b); [|reflexivity].
  cbn [negb orb] in H. apply andb_true_iff in H. destruct H as [H1 H2].
  apply Z.leb_le in H1. apply Z.ltb_lt in H2. lia.
Qed.

(** A sequence that [Utf8::Decode] accepts adds one to the count, or two
    when its first byte is the lead byte of a supplementary code point. *)
Lemma count_from_sequence :
  forall (utf8_array : buffer) (array_len i : Z),
    0 < Utf8.consumed (Utf8.Decode (offset utf8_array i) array_len) ->
    count_from utf8_array i
      (Z.to_nat (Utf8.consumed (Utf8.Decode (offset utf8_array i) array_len)))
    = (if Utf8.IsSupplementarySequenceStart (to_uint8 (utf8_array i))
       then 2 else 1)
    /\ 0 <= Utf8.dst (Utf8.Decode (offset utf8_array i) array_len)
    /\ (Utf8.consumed (Utf8.Decode (offset utf8_array i) array_len) = 1
        \/ Utf8.consumed (Utf8.Decode (offset utf8_array i) array_len)
           <= array_len).
Proof.
  intros utf8_array array_len i Hpos.
  pose proof (to_uint8_range (utf8_array i)) as Hb.
  unfold Utf8.IsSupplementarySequenceStart.
  destruct (Decode_accepts (offset utf8_array i) array_len Hpos)
    as [(Hascii & ->)
       |[(q & r & E0 & E1 & Hq & Hr & Hmin & Hlen & ->)
        |[(q & s & r & E0 & E1 & E2 & Hq & Hs & Hr & Hmin & Hlen & ->)
         |(q & t & s & r & E0 & E1 & E2 & E3 & Hq & Ht & Hs & Hr & Hv & Hlen & ->)]]];
    cbn [Utf8.consumed Utf8.dst]; unfold offset in *;
    rewrite ?Z.add_0_r in *.
  - change (Z.to_nat 1) with 1%nat. rewrite count_from_step.
    rewrite IsTrailByte_lead by lia.
    unfold Utf8.IsSupplementarySequenceStart.
    zfalse (0xF0 <=? to_uint8 (utf8_array i)).
    rewrite count_from_0. clear Hpos.
    split; [lia|]. split; lia.
  - change (Z.to_nat 2) with 2%nat. rewrite !count_from_step.
    rewrite E0, E1, (IsTrailByte_lead (0xC0 + q)), (IsTrailByte_trail r) by lia.
    unfold Utf8.IsSupplementarySequenceStart.
    zfalse (0xF0 <=? 0xC0 + q).
    rewrite count_from_0. clear Hpos.
    split; [lia|]. split; lia.
  - change (Z.to_nat 3) with 3%nat. rewrite !count_from_step.
    replace (i + 1 + 1) with (i + 2) by lia.
    rewrite E0, E1, E2, (IsTrailByte_lead (0xE0 + q)),
      (IsTrailByte_trail s), (IsTrailByte_trail r) by lia.
    unfold Utf8.IsSupplementarySequenceStart.
    zfalse (0xF0 <=? 0xE0 + q).
    rewrite count_from_0. clear Hpos.
    split; [lia|]. split; lia.
  - change (Z.to_nat 4) with 4%nat. rewrite !count_from_step.
    replace (i + 1 + 1) with (i + 2) by lia.
    replace (i + 2 + 1) with (i + 3) by lia.
    rewrite E0, E1, E2, E3, (IsTrailByte_lead (0xF0 + q)),
      (IsTrailByte_trail t), (IsTrailByte_trail s), (IsTrailByte_trail r)
      by lia.
    unfold Utf8.IsSupplementarySequenceStart.
    ztrue (0xF0 <=? 0xF0 + q).
    rewrite count_from_0. clear Hpos.
    split; [lia|]. split; lia.
Qed.

(** On a well-formed source and with the capacity that
    [Utf8::CodeUnitCount] computes for what is left of it, the loop of
    [Utf8::DecodeToUTF16] consumes the source to its end and uses the
    capacity up exactly. *)
Lemma DecodeToUTF16_loop_well_formed :
  forall (utf8_array : buffer) (array_len i : Z),
    well_formed utf8_array array_len i ->
    forall (fuel : nat) (len j : Z) (w : writes),
      len = j + count_from utf8_array i (Z.to_nat (array_len - i)) ->
      len - j <= Z.of_nat fuel ->
      exists st,
        Utf8.DecodeToUTF16_loop fuel utf8_array array_len len i j w
        = Ret {| Utf8.invalid := false; Utf8.exit_i := Z.max i array_len;
                 Utf8.exit_j := len; Utf8.stored := st |}.
Proof.
  intros utf8_array array_len i Hwf.
  induction Hwf as [i Hend | i Hin Hpos _ IH]; intros fuel len j w Hlen Hfuel.
  - replace (Z.to_nat (array_len - i)) with 0%nat in Hlen by lia.
    rewrite count_from_0 in Hlen.
    replace (Z.max i array_len) with i by lia.
    replace len with j by lia.
    destruct fuel; cbn [Utf8.DecodeToUTF16_loop];
      zfalse (i <? array_len); cbn [andb]; eexists; reflexivity.
  - set (d := Utf8.Decode (offset utf8_array i) (array_len - i)) in *.
    destruct (count_from_sequence utf8_array (array_len - i) i Hpos)
      as (Hunits & Hdst & Hk).
    fold d in Hunits, Hdst, Hk.
    assert (Hk' : Utf8.consumed d <= array_len - i) by lia.
    replace (Z.to_nat (array_len - i))
      with (Z.to_nat (Utf8.consumed d)
            + Z.to_nat (array_len - (i + Utf8.consumed d)))%nat in Hlen by lia.
    rewrite count_from_app, Hunits, Z2Nat.id in Hlen by lia.
    pose proof (count_from_nonneg
                  (Z.to_nat (array_len - (i + Utf8.consumed d)))
                  utf8_array (i + Utf8.consumed d)) as Hnn.
    replace (Z.max i array_len)
      with (Z.max (i + Utf8.consumed d) array_len) by lia.
    destruct fuel as [|fuel].
    { destruct (Utf8.IsSupplementarySequenceStart _); lia. }
    cbn [Utf8.DecodeToUTF16_loop]. fold d.
    ztrue (i <? array_len).
    assert (Hroom : j < len)
      by (destruct (Utf8.IsSupplementarySequenceStart _); lia).
    ztrue (j <? len). cbn [andb].
    zfalse (Utf8.dst d =? -1).
    destruct (Utf8.IsSupplementarySequenceStart (to_uint8 (utf8_array i)));
      apply IH; lia.
Qed.

(** X18: the count of [Utf8::CodeUnitCount] is the capacity that
    [Utf8::DecodeToUTF16] needs: on a source that is a succession of
    sequences accepted by [Utf8::Decode], and with len equal to the
    returned count, [Utf8::DecodeToUTF16] returns [true] and stores
    exactly len code units, at the indices 0 to len - 1 in this order, so
    none beyond the capacity. *)
Theorem CodeUnitCount_sizes_DecodeToUTF16 :
  forall (utf8_array : buffer) (array_len : Z),
    well_formed utf8_array array_len 0 ->
    exists w : writes,
      Utf8.DecodeToUTF16 utf8_array array_len
        (fst (Utf8.CodeUnitCount utf8_array array_len))
      = Ret (true, w)
      /\ Z.of_nat (List.length w) = fst (Utf8.CodeUnitCount utf8_array array_len)
      /\ map fst w = indices 0 (List.length w).
Proof.
  intros utf8_array array_len Hwf.
  change (fst (Utf8.CodeUnitCount utf8_array array_len))
    with (count_from utf8_array 0 (Z.to_nat array_len)).
  set (c := count_from utf8_array 0 (Z.to_nat array_len)).
  pose proof (count_from_nonneg (Z.to_nat array_len) utf8_array 0) as Hc.
  fold c in Hc.
  destruct (DecodeToUTF16_loop_well_formed utf8_array array_len 0 Hwf
              (Z.to_nat c) c 0 [])
    as [st Hloop].
  { rewrite Z.sub_0_r. reflexivity. }
  { lia. }
  destruct (DecodeToUTF16_loop_inv (Z.to_nat c) utf8_array array_len c
              0 0 [] ltac:(lia) eq_refl eq_refl (Forall_nil _))
    as (e & Hloop' & Hcount & Hmap & _).
  rewrite Hloop in Hloop'. injection Hloop' as <-.
  cbn [Utf8.stored Utf8.exit_j] in Hcount, Hmap.
  exists st. split; [|split; [exact Hcount | exact Hmap]].
  unfold Utf8.DecodeToUTF16. rewrite Hloop.
  cbn [bind Utf8.invalid Utf8.exit_i Utf8.exit_j Utf8.stored].
  zfalse (Z.max 0 array_len <? array_len). reflexivity.
Qed.

Lemma CodeUnitCount_sizes_DecodeToUTF16_witness :
  well_formed (of_list [0x41; 0xF0; 0x9F; 0x98; 0x80; 0xE2; 0x82; 0xAC]) 8 0
  /\ Utf8.CodeUnitCount (of_list [0x41; 0xF0; 0x9F; 0x98; 0x80; 0xE2; 0x82; 0xAC]) 8
     = (4, Utf8.kSupplementary)
  /\ Utf8.DecodeToUTF16 (of_list [0x41; 0xF0; 0x9F; 0x98; 0x80; 0xE2; 0x82; 0xAC]) 8 4
     = Ret (true, [(0, 0x41); (1, 0xD83D); (2, 0xDE00); (3, 0x20AC)]).
Proof.
  assert (Hwf : well_formed
                  (of_list [0x41; 0xF0; 0x9F; 0x98; 0x80; 0xE2; 0x82; 0xAC]) 8 0).
  { apply wf_seq; [reflexivity | reflexivity |].
    apply wf_seq; [reflexivity | reflexivity |].
    apply wf_seq; [reflexivity | reflexivity |].
    apply wf_end. vm_compute. discriminate. }
  split; [exact Hwf|]. split; [reflexivity|].
  destruct (CodeUnitCount_sizes_DecodeToUTF16 _ 8 Hwf) as (w & Hres & _).
  change (fst (Utf8.CodeUnitCount
                 (of_list [0x41; 0xF0; 0x9F; 0x98; 0x80; 0xE2; 0x82; 0xAC]) 8))
    with 4 in Hres.
  rewrite Hres. revert Hres. vm_compute. intros Hres. exact (eq_sym Hres).
Defined.

(** The type reported by the loop of [Utf8::CodeUnitCount]: the widest
    class met, among the type it starts from and the bytes it visits. *)
Lemma CodeUnitCount_loop_type :
  forall (n : nat) (utf8_array : buffer) (i len : Z) (ty : Utf8.Type_),
    snd (Utf8.CodeUnitCount_loop n utf8_array i len ty)
    = if existsb (fun k => 0xF0 <=? to_uint8 (utf8_array k)) (indices i n)
      then Utf8.kSupplementary
      else match ty with
           | Utf8.kLatin1 =>
               if existsb (fun k => 0xC3 <? to_uint8 (utf8_array k)) (indices i n)
               then Utf8.kBMP else Utf8.kLatin1
           | _ => ty
           end.
Proof.
  induction n as [|n IH]; intros utf8_array i len ty.
  - cbn. destruct ty; reflexivity.
  - cbn [Utf8.CodeUnitCount_loop indices existsb].
    pose proof (to_uint8_range (utf8_array i)) as Hb.
    pose proof (IsTrailByte_range _ Hb) as Htr.
    unfold Utf8.IsLatin1SequenceStart, Utf8.IsSupplementarySequenceStart.
    destruct (Utf8.IsTrailByte (to_uint8 (utf8_array i))); cbn [negb orb] in *.
    + apply andb_true_iff in Htr. destruct Htr as [H1 H2].
      apply Z.leb_le in H1. apply Z.ltb_lt in H2.
      zfalse (0xF0 <=? to_uint8 (utf8_array i)).
      zfalse (0xC3 <? to_uint8 (utf8_array i)).
      cbn [orb]. apply IH.
    + destruct (Z.leb_spec (to_uint8 (utf8_array i)) 0xC3) as [Hl|Hl];
        cbn [negb].
      * zfalse (0xF0 <=? to_uint8 (utf8_array i)).
        zfalse (0xC3 <? to_uint8 (utf8_array i)).
        cbn [orb]. apply IH.
      * ztrue (0xC3 <? to_uint8 (utf8_array i)).
        destruct (Z.leb_spec 0xF0 (to_uint8 (utf8_array i))) as [Hs|Hs];
          cbn [orb]; rewrite IH.
        -- destruct (existsb _ _); reflexivity.
        -- destruct (existsb (fun k => 0xF0 <=? to_uint8 (utf8_array k)) _);
             [reflexivity|].
           destruct ty; reflexivity.
Qed.

Lemma indices_In_iff :
  forall (n : nat) (lo i : Z),
    In i (indices lo n) <-> lo <= i < lo + Z.of_nat n.
Proof.
  intros n lo i. split; [apply indices_In|].
  revert lo. induction n as [|n IH]; intros lo Hi; [lia|].
  cbn [indices In].
  destruct (Z.eq_dec lo i) as [->|Hne]; [left; reflexivity|].
  right. apply IH. lia.
Qed.

(** X19: the type that [Utf8::CodeUnitCount] stores is [kSupplementary]
    exactly when some byte of the source is 0xF0 or above, [kLatin1]
    exactly when every byte of the source is 0xC3 or below, and [kBMP]
    otherwise. *)
Theorem CodeUnitCount_type :
  forall (utf8_array : buffer) (array_len : Z),
    (snd (Utf8.CodeUnitCount utf8_array array_len) = Utf8.kSupplementary
     <-> exists k, 0 <= k < array_len /\ 0xF0 <= to_uint8 (utf8_array k))
    /\ (snd (Utf8.CodeUnitCount utf8_array array_len) = Utf8.kLatin1
        <-> forall k, 0 <= k < array_len -> to_uint8 (utf8_array k) <= 0xC3).
Proof.
  intros utf8_array array_len. unfold Utf8.CodeUnitCount.
  rewrite CodeUnitCount_loop_type.
  assert (Hsup :
    existsb (fun k => 0xF0 <=? to_uint8 (utf8_array k))
      (indices 0 (Z.to_nat array_len)) = true
    <-> exists k, 0 <= k < array_len /\ 0xF0 <= to_uint8 (utf8_array k)).
  { rewrite existsb_exists. split.
    - intros (k & Hin & Hk). apply indices_In_iff in Hin.
      apply Z.leb_le in Hk. exists k. split; lia.
    - intros (k & Hin & Hk). exists k. split.
      + apply indices_In_iff. lia.
      + apply Z.leb_le. exact Hk. }
  assert (Hwide :
    existsb (fun k => 0xC3 <? to_uint8 (utf8_array k))
      (indices 0 (Z.to_nat array_len)) = true
    <-> exists k, 0 <= k < array_len /\ 0xC3 < to_uint8 (utf8_array k)).
  { rewrite existsb_exists. split.
    - intros (k & Hin & Hk). apply indices_In_iff in Hin.
      apply Z.ltb_lt in Hk. exists k. split; lia.
    - intros (k & Hin & Hk). exists k. split.
      + apply indices_In_iff. lia.
      + apply Z.ltb_lt. exact Hk. }
  destruct (existsb (fun k => 0xF0 <=? to_uint8 (utf8_array k)) _) eqn:Es.
  - destruct (proj1 Hsup eq_refl) as (k & Hk & Hb).
    split.
    + split; [intros _; exists k; split; assumption | reflexivity].
    + split; [discriminate|].
      intros Hall. specialize (Hall k Hk). lia.
  - assert (Hnone : ~ exists k, 0 <= k < array_len
                                /\ 0xF0 <= to_uint8 (utf8_array k)).
    { intros Hex. apply Hsup in Hex. discriminate Hex. }
    destruct (existsb (fun k => 0xC3 <? to_uint8 (utf8_array k)) _) eqn:Ew.
    + destruct (proj1 Hwide eq_refl) as (k & Hk & Hb).
      split.
      * split; [discriminate | intros Hex; contradiction].
      * split; [discriminate|].
        intros Hall. specialize (Hall k Hk). lia.
    + split.
      * split; [discriminate | intros Hex; contradiction].
      * split; [|reflexivity].
        intros _ k Hk.
        destruct (Z.le_gt_cases (to_uint8 (utf8_array k)) 0xC3) as [Hle|Hgt];
          [exact Hle|].
        assert (Hex : exists k, 0 <= k < array_len
                                /\ 0xC3 < to_uint8 (utf8_array k))
          by (exists k; split; assumption).
        apply Hwide in Hex. discriminate Hex.
Qed.

(* ================================================================== *)
(** * From UTF-16 to UTF-8 and back *)
(* ================================================================== *)

Lemma store_all_outside :
  forall (w : writes) (mem : buffer) (i : Z),
    ~ In i (map fst w) -> store_all mem w i = mem i.
Proof.
  induction w as [|[a v] w IH]; intros mem i Hout.
  - reflexivity.
  - cbn [map fst In] in Hout.
    change (store_all mem ((a, v) :: w)) with (store_all (store mem a v) w).
    rewrite IH by tauto. unfold store.
    destruct (Z.eqb_spec i a) as [->|_]; [tauto | reflexivity].
Qed.

(** A trace that stores to consecutive indices leaves its values in the
    buffer, in the order of the stores. *)
Lemma store_all_consecutive :
  forall (w : writes) (mem : buffer) (lo : Z) (t : nat),
    map fst w = indices lo (List.length w) ->
    (t < List.length w)%nat ->
    store_all mem w (lo + Z.of_nat t) = nth t (map snd w) 0.
Proof.
  induction w as [|[a v] w IH]; intros mem lo t Hidx Ht.
  - cbn in Ht. lia.
  - cbn [map fst snd List.length indices] in Hidx.
    injection Hidx as -> Hrest.
    change (store_all mem ((lo, v) :: w)) with (store_all (store mem lo v) w).
    destruct t as [|t].
    + rewrite store_all_outside.
      * unfold store. replace (lo + Z.of_nat 0) with lo by lia.
        rewrite Z.eqb_refl. reflexivity.
      * rewrite Hrest. intros Hin. apply indices_In in Hin. lia.
    + cbn [map snd nth].
      replace (lo + Z.of_nat (S t)) with (lo + 1 + Z.of_nat t) by lia.
      apply IH; [exact Hrest | cbn [List.length] in Ht; lia].
Qed.

Lemma map_snd_shift : forall pos w, map snd (shift pos w) = map snd w.
Proof. intros pos w. unfold shift. rewrite map_map. reflexivity. Qed.

Lemma encode_at_bytes :
  forall cps pos, map snd (fst (encode_at pos cps)) = utf8_bytes cps.
Proof.
  induction cps as [|ch rest IH]; intros pos; cbn [encode_at utf8_bytes fst].
  - reflexivity.
  - rewrite map_app, map_snd_shift, IH. reflexivity.
Qed.

Lemma Encode_count :
  forall ch, Z.of_nat (List.length (fst (Utf8.Encode ch))) = Utf8.Length ch.
Proof.
  intros ch. pose proof (Utf8_Length_range ch).
  rewrite <- (length_map fst), (proj1 (Encode_shape ch)), indices_length. lia.
Qed.

Lemma utf8_bytes_length :
  forall cps, Z.of_nat (List.length (utf8_bytes cps)) = total_length cps.
Proof.
  induction cps as [|ch rest IH]; cbn [utf8_bytes total_length].
  - reflexivity.
  - rewrite length_app, length_map, Nat2Z.inj_add, Encode_count, IH.
    reflexivity.
Qed.

(** [Utf8::Decode] on a buffer that starts with the bytes stored by
    [Utf8::Encode(ch, dst)]. *)
Lemma Decode_encoded :
  forall (utf8_array : buffer) (array_len ch : Z),
    0 <= ch <= 0x10FFFF ->
    (forall t, (t < List.length (fst (Utf8.Encode ch)))%nat ->
       utf8_array (Z.of_nat t) = nth t (map snd (fst (Utf8.Encode ch))) 0) ->
    Utf8.Length ch <= array_len ->
    Utf8.consumed (Utf8.Decode utf8_array array_len) = Utf8.Length ch
    /\ Utf8.dst (Utf8.Decode utf8_array array_len) = ch
    /\ Utf8.IsSupplementarySequenceStart (to_uint8 (utf8_array 0))
       = negb (ch <=? Utf16.kMaxCodeUnit).
Proof.
  intros utf8_array array_len ch Hch Hbytes Hlen.
  destruct (Utf8_Length_by_range ch) as (L1 & L2 & L3 & L4).
  unfold Utf8.IsSupplementarySequenceStart, Utf16.kMaxCodeUnit.
  destruct (Z.le_gt_cases ch 0x7F) as [H1|H1];
    [|destruct (Z.le_gt_cases ch 0x7FF) as [H2|H2];
      [|destruct (Z.le_gt_cases ch 0xFFFF) as [H3|H3]]].
  - rewrite (L1 H1) in *. rewrite (Encode_one ch) in Hbytes by lia.
    pose proof (Hbytes 0%nat ltac:(cbn; lia)) as B0. cbn in B0.
    assert (E0 : to_uint8 (utf8_array 0) = ch)
      by (rewrite B0; apply to_uint8_small; lia).
    rewrite Decode_one by lia. rewrite E0. cbn [Utf8.consumed Utf8.dst].
    zfalse (0xF0 <=? ch). ztrue (ch <=? 0xFFFF).
    split; [reflexivity|]. split; reflexivity.
  - rewrite (L2 ltac:(lia)) in *. rewrite (Encode_two ch) in Hbytes by lia.
    pose proof (Hbytes 0%nat ltac:(cbn; lia)) as B0.
    pose proof (Hbytes 1%nat ltac:(cbn; lia)) as B1.
    cbn [map snd fst nth Z.of_nat Pos.of_succ_nat] in B0, B1.
    rewrite (Decode_two utf8_array array_len (ch / 64) (ch mod 64));
      [ | exact B0 | exact B1 | zdiv | zdiv | zdiv | lia ].
    cbn [Utf8.consumed Utf8.dst]. rewrite B0.
    assert (Hq : 0 <= ch / 64 < 32) by zdiv.
    rewrite to_uint8_small by lia.
    zfalse (0xF0 <=? 0xC0 + ch / 64). ztrue (ch <=? 0xFFFF).
    split; [reflexivity|]. split; [zdiv | reflexivity].
  - rewrite (L3 ltac:(lia)) in *. rewrite (Encode_three ch) in Hbytes by lia.
    pose proof (Hbytes 0%nat ltac:(cbn; lia)) as B0.
    pose proof (Hbytes 1%nat ltac:(cbn; lia)) as B1.
    pose proof (Hbytes 2%nat ltac:(cbn; lia)) as B2.
    cbn [map snd fst nth Z.of_nat Pos.of_succ_nat Pos.succ] in B0, B1, B2.
    rewrite (Decode_three utf8_array array_len (ch / 4096)
               ((ch / 64) mod 64) (ch mod 64));
      [ | exact B0 | exact B1 | exact B2 | zdiv | zdiv | zdiv | zdiv | lia ].
    cbn [Utf8.consumed Utf8.dst]. rewrite B0.
    assert (Hq : 0 <= ch / 4096 < 16) by zdiv.
    rewrite to_uint8_small by lia.
    zfalse (0xF0 <=? 0xE0 + ch / 4096). ztrue (ch <=? 0xFFFF).
    split; [reflexivity|]. split; [zdiv | reflexivity].
  - rewrite (L4 ltac:(lia)) in *. rewrite (Encode_four ch) in Hbytes by lia.
    pose proof (Hbytes 0%nat ltac:(cbn; lia)) as B0.
    pose proof (Hbytes 1%nat ltac:(cbn; lia)) as B1.
    pose proof (Hbytes 2%nat ltac:(cbn; lia)) as B2.
    pose proof (Hbytes 3%nat ltac:(cbn; lia)) as B3.
    cbn [map snd fst nth Z.of_nat Pos.of_succ_nat Pos.succ] in B0, B1, B2, B3.
    rewrite (Decode_four utf8_array array_len (ch / 262144)
               ((ch / 4096) mod 64) ((ch / 64) mod 64) (ch mod 64));
      [ | exact B0 | exact B1 | exact B2 | exact B3
        | zdiv | zdiv | zdiv | zdiv | zdiv | lia ].
    cbn [Utf8.consumed Utf8.dst]. rewrite B0.
    assert (Hq : 0 <= ch / 262144 < 8) by zdiv.
    rewrite to_uint8_small by lia.
    ztrue (0xF0 <=? 0xF0 + ch / 262144). zfalse (ch <=? 0xFFFF).
    split; [reflexivity|]. split; [zdiv | reflexivity].
Qed.

Lemma to_uint16_small : forall x, 0 <= x <= 0xFFFF -> to_uint16 x = x.
Proof. intros x Hx. apply Z.mod_small. lia. Qed.

(** The loop of [Utf8::DecodeToUTF16] over the bytes of a sequence of code
    points, with room for their code units: it consumes them all and
    stores the code units of the sequence. *)
Lemma DecodeToUTF16_loop_encoded :
  forall (cps : list Z) (fuel : nat) (utf8_array : buffer)
         (array_len len i j : Z) (w : writes),
    Forall (fun ch => 0 <= ch <= 0x10FFFF) cps ->
    (forall t, (t < List.length (utf8_bytes cps))%nat ->
       utf8_array (i + Z.of_nat t) = nth t (utf8_bytes cps) 0) ->
    array_len = i + total_length cps ->
    j + Z.of_nat (List.length (to_code_units cps)) <= len ->
    len - j <= Z.of_nat fuel ->
    Utf8.DecodeToUTF16_loop fuel utf8_array array_len len i j w
    = Ret {| Utf8.invalid := false;
             Utf8.exit_i := array_len;
             Utf8.exit_j := j + Z.of_nat (List.length (to_code_units cps));
             Utf8.stored :=
               w ++ combine (indices j (List.length (to_code_units cps)))
                      (to_code_units cps) |}.
Proof.
  induction cps as [|ch rest IH];
    intros fuel utf8_array array_len len i j w Hcps Hbuf Hn Hroom Hfuel.
  - cbn [total_length to_code_units List.length indices combine] in *.
    rewrite app_nil_r. replace (j + Z.of_nat 0) with j by lia.
    replace array_len with i by lia.
    destruct fuel; cbn [Utf8.DecodeToUTF16_loop];
      zfalse (i <? i); cbn [andb]; reflexivity.
  - inversion Hcps as [|? ? Hch Hrest]; subst.
    cbn [total_length utf8_bytes] in *.
    pose proof (Utf8_Length_range ch) as Hk.
    pose proof (total_length_nonneg rest) as Hnn.
    pose proof (Encode_count ch) as Hcount.
    assert (Hlenb : List.length (map snd (fst (Utf8.Encode ch)))
                    = List.length (fst (Utf8.Encode ch)))
      by apply length_map.
    destruct (Decode_encoded (offset utf8_array i)
                (i + (Utf8.Length ch + total_length rest) - i) ch Hch)
      as (Hcons & Hdst & Hsup).
    { intros t Ht. unfold offset.
      rewrite Hbuf by (rewrite length_app; lia).
      rewrite app_nth1 by lia. reflexivity. }
    { lia. }
    unfold offset in Hsup. rewrite Z.add_0_r in Hsup.
    assert (Hnext : forall t, (t < List.length (utf8_bytes rest))%nat ->
              utf8_array (i + Utf8.Length ch + Z.of_nat t)
              = nth t (utf8_bytes rest) 0).
    { intros t Ht.
      replace (i + Utf8.Length ch + Z.of_nat t)
        with (i + Z.of_nat (List.length (map snd (fst (Utf8.Encode ch))) + t))
        by lia.
      rewrite Hbuf by (rewrite length_app; lia).
      rewrite app_nth2_plus. reflexivity. }
    assert (Hunits : 1 <= Z.of_nat (List.length (to_code_units (ch :: rest)))).
    { cbn [to_code_units]. rewrite length_app.
      destruct (ch <=? Utf16.kMaxCodeUnit); cbn [List.length Utf16.Encode map]; lia. }
    destruct fuel as [|fuel]; [lia|].
    cbn [Utf8.DecodeToUTF16_loop].
    ztrue (i <? i + (Utf8.Length ch + total_length rest)).
    ztrue (j <? len). cbn [andb].
    rewrite Hcons, Hdst, Hsup.
    zfalse (ch =? -1).
    cbn [to_code_units] in *. unfold Utf16.kMaxCodeUnit in *.
    destruct (Z.leb_spec ch 0xFFFF) as [Hbmp|Hsupp]; cbn [negb app] in *.
    + cbn [List.length] in Hroom.
      rewrite (IH fuel utf8_array _ len (i + Utf8.Length ch) (j + 1)
                 (w ++ [(j, to_uint16 ch)]) Hrest Hnext);
        [ | lia | lia | lia ].
      rewrite to_uint16_small by lia.
      cbn [List.length indices combine].
      rewrite <- app_assoc. cbn [app].
      replace (j + 1 + Z.of_nat (List.length (to_code_units rest)))
        with (j + Z.of_nat (S (List.length (to_code_units rest)))) by lia.
      reflexivity.
    + destruct (Utf16_Encode_pair ch ltac:(lia)) as (He & _).
      rewrite He in *. cbn [map snd app List.length shift fst] in *.
      rewrite (IH fuel utf8_array _ len (i + Utf8.Length ch) (j + 1 + 1)
                 (w ++ [(j + 0, 0xD7C0 + ch / 1024);
                        (j + 1, 0xDC00 + ch mod 1024)]) Hrest Hnext);
        [ | lia | lia | lia ].
      cbn [indices combine].
      rewrite <- app_assoc. cbn [app].
      replace (j + 0) with j by lia.
      replace (j + 1 + 1 + Z.of_nat (List.length (to_code_units rest)))
        with (j + Z.of_nat (S (S (List.length (to_code_units rest))))) by lia.
      reflexivity.
Qed.

Lemma Utf16_Decode_range :
  forall lead trail, 0x10000 <= Utf16.Decode lead trail <= 0x10FFFF.
Proof.
  intros lead trail. split; [apply Utf16_Decode_supplementary|].
  unfold Utf16.Decode.
  change 0x3FF with (Z.ones 10). rewrite !Z.land_ones by lia.
  rewrite Z.shiftl_mul_pow2 by lia. change (2 ^ 10) with 1024.
  zdiv.
Qed.

(** [Utf16::Encode] on the merge of a surrogate pair stores the pair. *)
Lemma Utf16_Encode_Decode :
  forall lead trail,
    Utf16.IsLeadSurrogate lead = true ->
    Utf16.IsTrailSurrogate trail = true ->
    map snd (Utf16.Encode (Utf16.Decode lead trail)) = [lead; trail].
Proof.
  intros lead trail Hl Ht.
  unfold Utf16.IsLeadSurrogate in Hl. unfold Utf16.IsTrailSurrogate in Ht.
  apply andb_true_iff in Hl. destruct Hl as [Hl1 Hl2].
  apply andb_true_iff in Ht. destruct Ht as [Ht1 Ht2].
  apply Z.leb_le in Hl1, Hl2, Ht1, Ht2.
  pose proof (Utf16_Decode_range lead trail) as Hr.
  destruct (Utf16_Encode_pair _ Hr) as (He & _). rewrite He.
  cbn [map snd]. unfold Utf16.Decode.
  change 0x3FF with (Z.ones 10). rewrite !Z.land_ones by lia.
  rewrite Z.shiftl_mul_pow2 by lia. change (2 ^ 10) with 1024.
  f_equal; [zdiv | f_equal; zdiv].
Qed.

(** The merge of a string of 16-bit code units: its code points are at
    most U+10FFFF, and their code units are the string. *)
Lemma merge_surrogates_inverse :
  forall units : list Z,
    (Forall (fun u => 0 <= u <= 0xFFFF) units ->
     Forall (fun ch => 0 <= ch <= 0x10FFFF) (merge_surrogates units)
     /\ to_code_units (merge_surrogates units) = units)
    /\ (forall u, Forall (fun u => 0 <= u <= 0xFFFF) (u :: units) ->
        Forall (fun ch => 0 <= ch <= 0x10FFFF) (merge_surrogates (u :: units))
        /\ to_code_units (merge_surrogates (u :: units)) = u :: units).
Proof.
  induction units as [|u2 rest [IH1 IH2]].
  - split.
    + intros _. split; [constructor | reflexivity].
    + intros u Hu. inversion Hu as [|? ? Hu0 _]; subst.
      cbn [merge_surrogates to_code_units]. unfold Utf16.kMaxCodeUnit.
      ztrue (u <=? 0xFFFF).
      split; [constructor; [lia | constructor] | reflexivity].
  - split; [exact (IH2 u2)|].
    intros u Hu. inversion Hu as [|? ? Hu0 Hrest]; subst.
    rewrite merge_surrogates_cons2.
    destruct (Utf16.IsLeadSurrogate u) eqn:Hl;
      [destruct (Utf16.IsTrailSurrogate u2) eqn:Ht|]; cbn [andb].
    + inversion Hrest as [|? ? _ Hrest2]; subst.
      destruct (IH1 Hrest2) as [Hr Hu2].
      pose proof (Utf16_Decode_range u u2) as Hd.
      split; [constructor; [lia | exact Hr]|].
      cbn [to_code_units]. unfold Utf16.kMaxCodeUnit.
      zfalse (Utf16.Decode u u2 <=? 0xFFFF).
      rewrite (Utf16_Encode_Decode u u2 Hl Ht), Hu2. reflexivity.
    + destruct (IH2 u2 Hrest) as [Hr Hu2].
      split; [constructor; [lia | exact Hr]|].
      cbn [to_code_units]. unfold Utf16.kMaxCodeUnit.
      ztrue (u <=? 0xFFFF). rewrite Hu2. reflexivity.
    + destruct (IH2 u2 Hrest) as [Hr Hu2].
      split; [constructor; [lia | exact Hr]|].
      cbn [to_code_units]. unfold Utf16.kMaxCodeUnit.
      ztrue (u <=? 0xFFFF). rewrite Hu2. reflexivity.
Qed.

(** With room for all of them, [Utf8::Encode(src, dst, len)] stores the
    encodings of all the code points of the string. *)
Lemma Encode_str_complete :
  forall (src : CodePointIterator.TwoByteString) (len : Z) (cps : list Z),
    CodePointIterator.code_points (S (List.length src))
      (CodePointIterator.new src) = Ret cps ->
    total_length cps <= len ->
    Utf8.Encode_str src len
    = Ret (fst (encode_at 0 cps), total_length cps).
Proof.
  intros src len cps Hcps Hfit.
  pose proof (total_length_nonneg cps) as Hnn.
  destruct (Encode_loop_prefix (S (List.length src))
              (CodePointIterator.new src) len 0 [] cps Hcps ltac:(lia))
    as (k & Hloop & Hle & Hstop).
  rewrite encode_at_total in Hle, Hstop.
  assert (Hk : firstn k cps = cps).
  { destruct Hstop as [-> | (ch & Hnth & Hover)].
    - apply firstn_all.
    - pose proof (total_length_firstn cps k ch Hnth). lia. }
  rewrite Hk, encode_at_total in Hloop. exact Hloop.
Qed.

(** X20: a string of 16-bit code units survives the way to UTF-8 and
    back: when [Utf8::Encode(src, dst, len8)] is given a capacity of at
    least [Utf8::Length(src)], it returns that length n, and
    [Utf8::DecodeToUTF16] on the n bytes it has stored, with a capacity of
    at least the number of code units of the string, returns [true] and
    stores the code units of the string, each at its index, unpaired
    surrogates included. *)
Theorem Encode_then_DecodeToUTF16 :
  forall (src : CodePointIterator.TwoByteString) (mem : buffer)
         (len8 len16 n : Z),
    Forall (fun u => 0 <= u <= 0xFFFF) src ->
    Utf8.Length_str src = Ret n ->
    n <= len8 ->
    Z.of_nat (List.length src) <= len16 ->
    exists w8 : writes,
      Utf8.Encode_str src len8 = Ret (w8, n)
      /\ Utf8.DecodeToUTF16 (store_all mem w8) n len16
         = Ret (true, combine (indices 0 (List.length src)) src).
Proof.
  intros src mem len8 len16 n Hunits Hn Hfit8 Hfit16.
  assert (Hu : Forall (fun u => u <= 0xFFFF) src).
  { eapply Forall_impl; [|exact Hunits]. cbn. intros u Hu. lia. }
  assert (Hcps : CodePointIterator.code_points (S (List.length src))
                   (CodePointIterator.new src)
                 = Ret (merge_surrogates src)).
  { apply (code_points_merge (S (List.length src)) [] src 0 (-1));
      [reflexivity | lia | exact Hu | lia]. }
  unfold Utf8.Length_str in Hn.
  rewrite (Length_loop_total _ _ 0 _ Hcps) in Hn. injection Hn as Hn.
  assert (Hn' : n = total_length (merge_surrogates src)) by lia.
  clear Hn. subst n.
  destruct (proj1 (merge_surrogates_inverse src) Hunits) as [Hrange Hback].
  set (cps := merge_surrogates src) in *.
  exists (fst (encode_at 0 cps)).
  split; [apply Encode_str_complete; assumption|].
  destruct (encode_at_layout cps 0) as [_ Hmap].
  rewrite encode_at_total in Hmap.
  replace (0 + total_length cps - 0) with (total_length cps) in Hmap by lia.
  assert (Hlen : List.length (fst (encode_at 0 cps))
                 = Z.to_nat (total_length cps)).
  { rewrite <- (length_map fst), Hmap. apply indices_length. }
  rewrite <- Hlen in Hmap.
  unfold Utf8.DecodeToUTF16.
  rewrite (DecodeToUTF16_loop_encoded cps (Z.to_nat len16)
             (store_all mem (fst (encode_at 0 cps)))
             (total_length cps) len16 0 0 [] Hrange).
  - cbn [bind Utf8.invalid Utf8.exit_i Utf8.exit_j Utf8.stored app].
    zfalse (total_length cps <? total_length cps).
    cbn [andb]. rewrite Hback. reflexivity.
  - intros t Ht.
    rewrite <- (encode_at_bytes cps 0) in Ht |- *.
    rewrite length_map in Ht.
    apply store_all_consecutive; assumption.
  - lia.
  - rewrite Hback. lia.
  - lia.
Qed.

Lemma Encode_then_DecodeToUTF16_witness :
  Forall (fun u => 0 <= u <= 0xFFFF) [0xD83D; 0xDE00; 0x41; 0x20AC; 0xDC00]
  /\ Utf8.Length_str [0xD83D; 0xDE00; 0x41; 0x20AC; 0xDC00] = Ret 11
  /\ 11 <= 16
  /\ Z.of_nat (List.length [0xD83D; 0xDE00; 0x41; 0x20AC; 0xDC00]) <= 5
  /\ exists w8 : writes,
       Utf8.Encode_str [0xD83D; 0xDE00; 0x41; 0x20AC; 0xDC00] 16 = Ret (w8, 11)
       /\ Utf8.DecodeToUTF16 (store_all (fun _ => 0) w8) 11 5
          = Ret (true, [(0, 0xD83D); (1, 0xDE00); (2, 0x41); (3, 0x20AC);
                        (4, 0xDC00)]).
Proof.
  assert (H : Forall (fun u => 0 <= u <= 0xFFFF)
                [0xD83D; 0xDE00; 0x41; 0x20AC; 0xDC00])
    by (repeat constructor; cbv; discriminate).
  split; [exact H|]. split; [reflexivity|]. split; [lia|].
  split; [cbn; lia|].
  exact (Encode_then_DecodeToUTF16 [0xD83D; 0xDE00; 0x41; 0x20AC; 0xDC00]
           (fun _ => 0) 16 5 11 H eq_refl ltac:(lia) ltac:(cbn; lia)).
Defined.

(** The count of [Utf8::CodeUnitCount] over the bytes of a sequence of code
    points is the number of their code units. *)
Lemma count_from_encoded :
  forall (cps : list Z) (utf8_array : buffer) (i : Z),
    Forall (fun ch => 0 <= ch <= 0x10FFFF) cps ->
    (forall t, (t < List.length (utf8_bytes cps))%nat ->
       utf8_array (i + Z.of_nat t) = nth t (utf8_bytes cps) 0) ->
    count_from utf8_array i (List.length (utf8_bytes cps))
    = Z.of_nat (List.length (to_code_units cps)).
Proof.
  induction cps as [|ch rest IH]; intros utf8_array i Hcps Hbuf.
  - reflexivity.
  - inversion Hcps as [|? ? Hch Hrest]; subst.
    cbn [utf8_bytes to_code_units] in *.
    pose proof (Utf8_Length_range ch) as Hk.
    pose proof (Encode_count ch) as Hcount.
    assert (Hlenb : List.length (map snd (fst (Utf8.Encode ch)))
                    = List.length (fst (Utf8.Encode ch)))
      by apply length_map.
    destruct (Decode_encoded (offset utf8_array i) (Utf8.Length ch) ch Hch)
      as (Hcons & Hdst & Hsup).
    { intros t Ht. unfold offset.
      rewrite Hbuf by (rewrite length_app; lia).
      rewrite app_nth1 by lia. reflexivity. }
    { lia. }
    destruct (count_from_sequence utf8_array (Utf8.Length ch) i
                ltac:(rewrite Hcons; lia)) as (Hunits & _).
    unfold offset in Hsup. rewrite Z.add_0_r in Hsup.
    rewrite Hcons, Hsup in Hunits.
    rewrite !length_app, count_from_app, Hlenb.
    replace (List.length (fst (Utf8.Encode ch)))
      with (Z.to_nat (Utf8.Length ch)) by lia.
    rewrite Hunits, Z2Nat.id by lia.
    rewrite (IH utf8_array (i + Utf8.Length ch) Hrest).
    + unfold Utf16.kMaxCodeUnit.
      destruct (ch <=? 0xFFFF); cbn [negb List.length Utf16.Encode map]; lia.
    + intros t Ht.
      replace (i + Utf8.Length ch + Z.of_nat t)
        with (i + Z.of_nat (List.length (map snd (fst (Utf8.Encode ch))) + t))
        by lia.
      rewrite Hbuf by (rewrite length_app; lia).
      rewrite app_nth2_plus. reflexivity.
Qed.

(** X21: on the n bytes that [Utf8::Encode(src, dst, len)] stores for a
    string of 16-bit code units when the capacity is at least
    n = [Utf8::Length(src)], [Utf8::CodeUnitCount] returns the number of
    code units of the string. *)
Theorem CodeUnitCount_of_Encode_str :
  forall (src : CodePointIterator.TwoByteString) (mem : buffer) (len n : Z),
    Forall (fun u => 0 <= u <= 0xFFFF) src ->
    Utf8.Length_str src = Ret n ->
    n <= len ->
    exists w : writes,
      Utf8.Encode_str src len = Ret (w, n)
      /\ fst (Utf8.CodeUnitCount (store_all mem w) n)
         = Z.of_nat (List.length src).
Proof.
  intros src mem len n Hunits Hn Hfit.
  assert (Hu : Forall (fun u => u <= 0xFFFF) src).
  { eapply Forall_impl; [|exact Hunits]. cbn. intros u Hu. lia. }
  assert (Hcps : CodePointIterator.code_points (S (List.length src))
                   (CodePointIterator.new src)
                 = Ret (merge_surrogates src)).
  { apply (code_points_merge (S (List.length src)) [] src 0 (-1));
      [reflexivity | lia | exact Hu | lia]. }
  unfold Utf8.Length_str in Hn.
  rewrite (Length_loop_total _ _ 0 _ Hcps) in Hn. injection Hn as Hn.
  assert (Hn' : n = total_length (merge_surrogates src)) by lia.
  clear Hn. subst n.
  destruct (proj1 (merge_surrogates_inverse src) Hunits) as [Hrange Hback].
  set (cps := merge_surrogates src) in *.
  exists (fst (encode_at 0 cps)).
  split; [apply Encode_str_complete; assumption|].
  destruct (encode_at_layout cps 0) as [_ Hmap].
  rewrite encode_at_total in Hmap.
  replace (0 + total_length cps - 0) with (total_length cps) in Hmap by lia.
  assert (Hlen : List.length (fst (encode_at 0 cps))
                 = Z.to_nat (total_length cps)).
  { rewrite <- (length_map fst), Hmap. apply indices_length. }
  rewrite <- Hlen in Hmap.
  change (fst (Utf8.CodeUnitCount (store_all mem (fst (encode_at 0 cps)))
                 (total_length cps)))
    with (count_from (store_all mem (fst (encode_at 0 cps))) 0
            (Z.to_nat (total_length cps))).
  rewrite <- utf8_bytes_length, Nat2Z.id.
  rewrite (count_from_encoded cps _ 0 Hrange).
  - rewrite Hback. reflexivity.
  - intros t Ht.
    rewrite <- (encode_at_bytes cps 0) in Ht |- *.
    rewrite length_map in Ht.
    apply store_all_consecutive; assumption.
Qed.

Lemma CodeUnitCount_of_Encode_str_witness :
  Forall (fun u => 0 <= u <= 0xFFFF) [0xD83D; 0xDE00; 0x41; 0x20AC]
  /\ Utf8.Length_str [0xD83D; 0xDE00; 0x41; 0x20AC] = Ret 8
  /\ 8 <= 8
  /\ exists w : writes,
       Utf8.Encode_str [0xD83D; 0xDE00; 0x41; 0x20AC] 8 = Ret (w, 8)
       /\ fst (Utf8.CodeUnitCount (store_all (fun _ => 0) w) 8) = 4.
Proof.
  assert (H : Forall (fun u => 0 <= u <= 0xFFFF)
                [0xD83D; 0xDE00; 0x41; 0x20AC])
    by (repeat constructor; cbv; discriminate).
  split; [exact H|]. split; [reflexivity|]. split; [lia|].
  exact (CodeUnitCount_of_Encode_str [0xD83D; 0xDE00; 0x41; 0x20AC]
           (fun _ => 0) 8 8 H eq_refl ltac:(lia)).
Defined.
